(** * CoveyTownController: the per-town session controller

    A shallow embedding of [src/lib/CoveyTownController.ts].

    - JavaScript objects that the controller shares with its callers
      (players, sessions, conversation areas) live in a store indexed by
      object references; the controller's arrays hold references, so a
      mutation through one alias is seen through every other.
    - A [number] is an exact rational: the controller only adds, subtracts,
      halves and compares coordinates.  Reading an array past its end gives
      [undefined], for which every comparison is false.
    - Listeners are observers: a call to one of their callbacks is recorded
      in the world's call log, in the order the controller makes it. *)

From Stdlib Require Import QArith Lqa.
From stdpp Require Import gmap strings list fin_maps pretty.

Open Scope Z_scope.

(** ** JavaScript arrays *)

Module JsArray.

Section Ops.
Context {A : Type}.

(** [arr.push(x)] *)
Definition push (arr : list A) (x : A) : list A := arr ++ [x].

(** [arr.splice(start, deleteCount)]: the array after the call.  A
    negative [start] counts from the end, and both arguments are
    clamped to the array. *)
Definition splice (arr : list A) (start deleteCount : Z) : list A :=
  let len := Z.of_nat (length arr) in
  let from := if start <? 0 then Z.max (len + start) 0 else Z.min start len in
  let count := Z.min (Z.max deleteCount 0) (len - from) in
  take (Z.to_nat from) arr ++ drop (Z.to_nat (from + count)) arr.

(** [arr.slice(start, end)]: a fresh array; [arr] itself is untouched. *)
Definition slice (arr : list A) (start stop : Z) : list A :=
  let len := Z.of_nat (length arr) in
  let clamp i := if i <? 0 then Z.max (len + i) 0 else Z.min i len in
  let from := clamp start in
  let to := clamp stop in
  take (Z.to_nat (to - from)) (drop (Z.to_nat from) arr).

(** [arr.forEach((x, i) => ...)] with the loop state threaded through. *)
Fixpoint forEachFrom {S : Type} (i : nat) (arr : list A)
    (body : A -> nat -> S -> S) (s : S) : S :=
  match arr with
  | [] => s
  | x :: rest => forEachFrom (Datatypes.S i) rest body (body x i s)
  end.

Definition forEach {S : Type} (arr : list A)
    (body : A -> nat -> S -> S) (s : S) : S :=
  forEachFrom 0%nat arr body s.
End Ops.

(** [arr.indexOf(x)] on an array of strings: the first position holding
    [x], or [-1]. *)
Fixpoint indexOfFrom (i : Z) (arr : list string) (x : string) : Z :=
  match arr with
  | [] => -1
  | y :: rest => if decide (y = x) then i else indexOfFrom (i + 1) rest x
  end.

Definition indexOf (arr : list string) (x : string) : Z := indexOfFrom 0 arr x.

End JsArray.

(** ** Numbers *)

Definition number := Q.

(** Comparisons on array elements; [None] is [undefined], which compares
    false with everything. *)
Definition num_le (a b : option number) : bool :=
  match a, b with
  | Some p, Some q => Qle_bool p q
  | _, _ => false
  end.

Definition num_lt (a b : option number) : bool :=
  match a, b with
  | Some p, Some q => negb (Qle_bool q p)
  | _, _ => false
  end.

Definition num_ge (a b : option number) : bool := num_le b a.
Definition num_gt (a b : option number) : bool := num_lt b a.

(** ** Data model *)

Definition PlayerRef := nat.
Definition SessionRef := nat.
Definition AreaRef := nat.
Definition ListenerRef := nat.

Inductive Direction := Front | Back | Left | Right.

(** Modelled from the spec: [UserLocation] of [CoveyTypes], whose declaration
    is not part of the sources: position, facing direction and the optional
    label of the conversation the participant is in. *)
Record UserLocation := mkUserLocation {
  loc_x : number;
  loc_y : number;
  rotation : Direction;
  moving : bool;
  conversationLabel : option string
}.

(** Modelled from the spec: [Player], whose class is not part of the sources:
    an opaque id, the current location and the optional reference to the
    active conversation area. *)
Record Player := mkPlayer {
  player_id : string;
  userName : string;
  location : UserLocation;
  activeConversationArea : option AreaRef
}.

(** Modelled from the spec: [BoundingBox] of [TownsServiceClient]: a centre
    and the full width and height. *)
Record BoundingBox := mkBoundingBox {
  box_x : number;
  box_y : number;
  width : number;
  height : number
}.

(** Modelled from the spec: [ServerConversationArea] of [TownsServiceClient]:
    label, topic, occupant ids and region. *)
Record ServerConversationArea := mkArea {
  label : string;
  topic : string;
  occupantsByID : list string;
  boundingBox : BoundingBox
}.

(** Modelled from the spec: [PlayerSession]: the participant, the credential
    token and the video token, unset until provisioning returns. *)
Record PlayerSession := mkSession {
  session_player : PlayerRef;
  sessionToken : string;
  videoToken : option string
}.

(** The callbacks of [CoveyTownListener] that the controller calls, each
    with its argument. *)
Inductive ListenerCall :=
  | onPlayerJoined (p : PlayerRef)
  | onPlayerMoved (p : PlayerRef)
  | onPlayerDisconnected (p : PlayerRef)
  | onConversationAreaUpdated (a : AreaRef)
  | onConversationAreaDestroyed (a : AreaRef)
  | onTownDestroyed.

#[global] Instance UserLocation_inhabited : Inhabited UserLocation :=
  populate (mkUserLocation 0%Q 0%Q Front false None).
#[global] Instance Player_inhabited : Inhabited Player :=
  populate (mkPlayer "" "" inhabitant None).
#[global] Instance BoundingBox_inhabited : Inhabited BoundingBox :=
  populate (mkBoundingBox 0%Q 0%Q 0%Q 0%Q).
#[global] Instance Area_inhabited : Inhabited ServerConversationArea :=
  populate (mkArea "" "" [] inhabitant).
#[global] Instance Session_inhabited : Inhabited PlayerSession :=
  populate (mkSession 0%nat "" None).

(** The private fields of the controller. *)
Record CoveyTownController := mkController {
  _players : list PlayerRef;
  _sessions : list SessionRef;
  _listeners : list ListenerRef;
  _conversationAreas : list AreaRef;
  _coveyTownID : string;
  _friendlyName : string;
  _townUpdatePassword : string;
  _isPubliclyListed : bool;
  _capacity : Z
}.

(** The objects the references point to. *)
Record Store := mkStore {
  playerObjs : gmap nat Player;
  sessionObjs : gmap nat PlayerSession;
  areaObjs : gmap nat ServerConversationArea
}.

(** A world: the controller, the objects, and the listener calls made so
    far. *)
Record World := mkWorld {
  this : CoveyTownController;
  store : Store;
  calls : list (ListenerRef * ListenerCall)
}.

(** ** Reading and writing objects *)

Definition getPlayer (w : World) (p : PlayerRef) : Player :=
  playerObjs (store w) !!! p.

Definition getSession (w : World) (s : SessionRef) : PlayerSession :=
  sessionObjs (store w) !!! s.

Definition getArea (w : World) (a : AreaRef) : ServerConversationArea :=
  areaObjs (store w) !!! a.

Definition setPlayer (p : PlayerRef) (v : Player) (w : World) : World :=
  mkWorld (this w)
    (mkStore (<[p := v]> (playerObjs (store w))) (sessionObjs (store w))
       (areaObjs (store w)))
    (calls w).

Definition setSession (s : SessionRef) (v : PlayerSession) (w : World) : World :=
  mkWorld (this w)
    (mkStore (playerObjs (store w)) (<[s := v]> (sessionObjs (store w)))
       (areaObjs (store w)))
    (calls w).

Definition setArea (a : AreaRef) (v : ServerConversationArea) (w : World) : World :=
  mkWorld (this w)
    (mkStore (playerObjs (store w)) (sessionObjs (store w))
       (<[a := v]> (areaObjs (store w))))
    (calls w).

(** Assignments to the controller's fields. *)
Definition set_players (v : list PlayerRef) (w : World) : World :=
  let c := this w in
  mkWorld
    (mkController v (_sessions c) (_listeners c) (_conversationAreas c)
       (_coveyTownID c) (_friendlyName c) (_townUpdatePassword c)
       (_isPubliclyListed c) (_capacity c))
    (store w) (calls w).

Definition set_sessions (v : list SessionRef) (w : World) : World :=
  let c := this w in
  mkWorld
    (mkController (_players c) v (_listeners c) (_conversationAreas c)
       (_coveyTownID c) (_friendlyName c) (_townUpdatePassword c)
       (_isPubliclyListed c) (_capacity c))
    (store w) (calls w).

Definition set_listeners (v : list ListenerRef) (w : World) : World :=
  let c := this w in
  mkWorld
    (mkController (_players c) (_sessions c) v (_conversationAreas c)
       (_coveyTownID c) (_friendlyName c) (_townUpdatePassword c)
       (_isPubliclyListed c) (_capacity c))
    (store w) (calls w).

Definition set_conversationAreas (v : list AreaRef) (w : World) : World :=
  let c := this w in
  mkWorld
    (mkController (_players c) (_sessions c) (_listeners c) v
       (_coveyTownID c) (_friendlyName c) (_townUpdatePassword c)
       (_isPubliclyListed c) (_capacity c))
    (store w) (calls w).

Definition set_capacity (v : Z) (w : World) : World :=
  let c := this w in
  mkWorld
    (mkController (_players c) (_sessions c) (_listeners c)
       (_conversationAreas c) (_coveyTownID c) (_friendlyName c)
       (_townUpdatePassword c) (_isPubliclyListed c) v)
    (store w) (calls w).

(** Field updates on the objects. *)
Definition with_occupantsByID (v : list string) (a : ServerConversationArea) :
    ServerConversationArea :=
  mkArea (label a) (topic a) v (boundingBox a).

Definition with_videoToken (v : option string) (s : PlayerSession) : PlayerSession :=
  mkSession (session_player s) (sessionToken s) v.

(** Modelled from the spec: [Player.setActiveConversationArea], which stores
    the participant's active-area reference (or clears it). *)
Definition setActiveConversationArea (p : PlayerRef) (a : option AreaRef)
    (w : World) : World :=
  let o := getPlayer w p in
  setPlayer p (mkPlayer (player_id o) (userName o) (location o) a) w.

(** Modelled from the spec: [Player.updateLocation], which applies the full
    location update (position, facing and label). *)
Definition updateLocation (p : PlayerRef) (l : UserLocation) (w : World) : World :=
  let o := getPlayer w p in
  setPlayer p (mkPlayer (player_id o) (userName o) l (activeConversationArea o)) w.

(** One call of a listener's callback. *)
Definition invoke (listener : ListenerRef) (c : ListenerCall) (w : World) : World :=
  mkWorld (this w) (store w) (JsArray.push (calls w) (listener, c)).

(** [this._listeners.forEach(listener => listener.c(...))] *)
Definition notifyListeners (c : ListenerCall) (w : World) : World :=
  JsArray.forEach (_listeners (this w)) (fun listener _ w => invoke listener c w) w.

(** ** The controller *)

(** The outcome of an awaited promise. *)
Inductive Promise (A : Type) :=
  | Resolved (value : A)
  | Rejected (reason : string).
Arguments Resolved {A} value.
Arguments Rejected {A} reason.

(** Modelled from the spec: [IVideoClient.getTokenForTown], the provisioning
    collaborator, which given the town id and the participant id issues a
    token or fails. *)
Definition IVideoClient := string -> string -> Promise string.

(** Getters. *)
Definition capacity (w : World) : Z := _capacity (this w).
Definition players (w : World) : list PlayerRef := _players (this w).
Definition occupancy (w : World) : Z := Z.of_nat (length (_listeners (this w))).
Definition conversationAreas (w : World) : list AreaRef :=
  _conversationAreas (this w).

(** The constructor; [townID] is the id it settled on (the friendly name of
    the demo town, or a fresh friendly id) and [password] the update
    password it drew. *)
Definition newCoveyTownController (friendlyName : string) (isPubliclyListed : bool)
    (townID password : string) : CoveyTownController :=
  mkController [] [] [] [] townID friendlyName password isPubliclyListed 50.

(** Modelled from the spec: [new PlayerSession(player)], a fresh session
    object for the participant holding the credential token it drew and no
    video token yet. *)
Definition newPlayerSession (player : PlayerRef) (token : string) (w : World) :
    SessionRef * World :=
  let r := fresh (dom (sessionObjs (store w))) in
  (r, setSession r (mkSession player token None) w).

(** [addPlayer], up to the point where it awaits the video client. *)
Definition addPlayer_enter (token : string) (newPlayer : PlayerRef) (w : World) :
    SessionRef * World :=
  let '(theSession, w) := newPlayerSession newPlayer token w in
  let w := set_sessions (JsArray.push (_sessions (this w)) theSession) w in
  let w := set_players (JsArray.push (_players (this w)) newPlayer) w in
  (theSession, w).

(** [addPlayer], from the point where the awaited promise has settled. *)
Definition addPlayer_resume (theSession : SessionRef) (newPlayer : PlayerRef)
    (settled : Promise string) (w : World) : Promise SessionRef * World :=
  match settled with
  | Rejected reason => (Rejected reason, w)
  | Resolved tok =>
      let w := setSession theSession
                 (with_videoToken (Some tok) (getSession w theSession)) w in
      let w := notifyListeners (onPlayerJoined newPlayer) w in
      (Resolved theSession, w)
  end.

(** [addPlayer] run to completion, nothing else touching the town while the
    promise is pending; [token] is the session token the new session drew. *)
Definition addPlayer (videoClient : IVideoClient) (token : string)
    (newPlayer : PlayerRef) (w : World) : Promise SessionRef * World :=
  let '(theSession, w) := addPlayer_enter token newPlayer w in
  let settled :=
    videoClient (_coveyTownID (this w)) (player_id (getPlayer w newPlayer)) in
  addPlayer_resume theSession newPlayer settled w.

(** The callback of the [forEach] over the conversation areas in
    [destroySession]. *)
Definition destroySession_each (session : SessionRef) (conversationArea : AreaRef)
    (convoIndex : nat) (w : World) : World :=
  let player := session_player (getSession w session) in
  if decide (Some (label (getArea w conversationArea)) =
             conversationLabel (location (getPlayer w player)))
  then
    let index := JsArray.indexOf (occupantsByID (getArea w conversationArea))
                   (player_id (getPlayer w player)) in
    let w := setArea conversationArea
               (with_occupantsByID
                  (JsArray.splice (occupantsByID (getArea w conversationArea)) index 1)
                  (getArea w conversationArea)) w in
    let w := notifyListeners (onConversationAreaUpdated conversationArea) w in
    if decide (length (occupantsByID (getArea w conversationArea)) = 0%nat)
    then
      let _ := JsArray.slice (_conversationAreas (this w)) (Z.of_nat convoIndex) 1 in
      notifyListeners (onConversationAreaDestroyed conversationArea) w
    else w
  else w.

Definition destroySession (session : SessionRef) (w : World) : World :=
  let player := session_player (getSession w session) in
  let w := set_players
             (filter (fun p => player_id (getPlayer w p) <> player_id (getPlayer w player))
                (_players (this w))) w in
  let w := set_sessions
             (filter (fun s => sessionToken (getSession w s) <>
                               sessionToken (getSession w session))
                (_sessions (this w))) w in
  let w := JsArray.forEach (_conversationAreas (this w)) (destroySession_each session) w in
  notifyListeners (onPlayerDisconnected player) w.

(** The callback of the first [forEach] of [updatePlayerLocation]: leave the
    area of the previous label. *)
Definition updatePlayerLocation_leave (player : PlayerRef)
    (conversationArea : AreaRef) (_ : nat) (w : World) : World :=
  if decide (Some (label (getArea w conversationArea)) =
             conversationLabel (location (getPlayer w player)))
  then
    let index := JsArray.indexOf (occupantsByID (getArea w conversationArea))
                   (player_id (getPlayer w player)) in
    let w := setArea conversationArea
               (with_occupantsByID
                  (JsArray.splice (occupantsByID (getArea w conversationArea)) index 1)
                  (getArea w conversationArea)) w in
    let w := setActiveConversationArea player None w in
    notifyListeners (onConversationAreaUpdated conversationArea) w
  else w.

(** The callback of the second [forEach]: enter the area of the new label. *)
Definition updatePlayerLocation_enter (player : PlayerRef) (location' : UserLocation)
    (conversationArea : AreaRef) (_ : nat) (w : World) : World :=
  if decide (Some (label (getArea w conversationArea)) = conversationLabel location')
  then
    let w := setArea conversationArea
               (with_occupantsByID
                  (JsArray.push (occupantsByID (getArea w conversationArea))
                     (player_id (getPlayer w player)))
                  (getArea w conversationArea)) w in
    let w := setActiveConversationArea player (Some conversationArea) w in
    notifyListeners (onConversationAreaUpdated conversationArea) w
  else w.

Definition updatePlayerLocation (player : PlayerRef) (location' : UserLocation)
    (w : World) : World :=
  let w :=
    if decide (conversationLabel (location (getPlayer w player)) <>
               conversationLabel location')
    then
      let w := JsArray.forEach (_conversationAreas (this w))
                 (updatePlayerLocation_leave player) w in
      JsArray.forEach (_conversationAreas (this w))
        (updatePlayerLocation_enter player location') w
    else w in
  let w := updateLocation player location' w in
  notifyListeners (onPlayerMoved player) w.

(** The eight coordinates of a bounding box: bottom-left, top-right,
    top-left and bottom-right corners, each as x then y. *)
Definition getConversationAreaCoordinates (boudingBox : BoundingBox) : list number :=
  let heightDiff := (height boudingBox / 2)%Q in
  let widthDiff := (width boudingBox / 2)%Q in
  let xBotLeft := (box_x boudingBox - widthDiff)%Q in
  let yBotLeft := (box_y boudingBox - heightDiff)%Q in
  let xTopRight := (box_x boudingBox + widthDiff)%Q in
  let yTopRight := (box_y boudingBox + heightDiff)%Q in
  let xTopLeft := (box_x boudingBox - widthDiff)%Q in
  let yTopLeft := (box_y boudingBox + heightDiff)%Q in
  let xBotRight := (box_x boudingBox + widthDiff)%Q in
  let yBotRight := (box_y boudingBox - heightDiff)%Q in
  [xBotLeft; yBotLeft; xTopRight; yTopRight; xTopLeft; yTopLeft; xBotRight; yBotRight].

(** The condition of the [if] inside the loop of [conversationOverlaps]. *)
Definition overlapCondition (mainCoordinates newCoordinates : list number) : bool :=
  negb
    (num_ge (mainCoordinates !! 0%nat) (newCoordinates !! 2%nat) ||
     num_le (mainCoordinates !! 2%nat) (newCoordinates !! 0%nat) ||
     num_le (mainCoordinates !! 3%nat) (newCoordinates !! 1%nat) ||
     num_ge (mainCoordinates !! 1%nat) (newCoordinates !! 3%nat)).

(** The [for] loop of [conversationOverlaps], leaving at the first hit. *)
Fixpoint conversationOverlapsLoop (w : World) (areas : list AreaRef)
    (mainCoordinates : list number) : bool :=
  match areas with
  | [] => false
  | a :: rest =>
      let newCoordinates := getConversationAreaCoordinates (boundingBox (getArea w a)) in
      if overlapCondition mainCoordinates newCoordinates then true
      else conversationOverlapsLoop w rest mainCoordinates
  end.

Definition conversationOverlaps (mainCoordinates : list number) (w : World) : bool :=
  conversationOverlapsLoop w (_conversationAreas (this w)) mainCoordinates.

Definition isPlayerInConversationArea (player : Player)
    (conversationAreaCoordinates : list number) : bool :=
  if num_gt (Some (loc_x (location player))) (conversationAreaCoordinates !! 4%nat) &&
     num_lt (Some (loc_x (location player))) (conversationAreaCoordinates !! 6%nat) &&
     num_lt (Some (loc_y (location player))) (conversationAreaCoordinates !! 5%nat) &&
     num_gt (Some (loc_y (location player))) (conversationAreaCoordinates !! 7%nat)
  then true
  else false.

(** The label search of [addConversationArea], leaving at the first hit. *)
Fixpoint labelExistsLoop (w : World) (areas : list AreaRef) (l : string) : bool :=
  match areas with
  | [] => false
  | a :: rest =>
      if decide (label (getArea w a) = l) then true else labelExistsLoop w rest l
  end.

(** The callback of the [forEach] over the players in
    [addConversationArea]. *)
Definition addConversationArea_each (_conversationArea : AreaRef)
    (conversationAreaCoordinates : list number) (player : PlayerRef) (_ : nat)
    (w : World) : World :=
  let playerInConvoArea :=
    isPlayerInConversationArea (getPlayer w player) conversationAreaCoordinates in
  if playerInConvoArea then
    let w := setArea _conversationArea
               (with_occupantsByID
                  (JsArray.push (occupantsByID (getArea w _conversationArea))
                     (player_id (getPlayer w player)))
                  (getArea w _conversationArea)) w in
    setActiveConversationArea player (Some _conversationArea) w
  else w.

Definition addConversationArea (_conversationArea : AreaRef) (w : World) :
    bool * World :=
  if decide (topic (getArea w _conversationArea) = "") then (false, w)
  else
    let conversationAreaLabelExists :=
      labelExistsLoop w (_conversationAreas (this w))
        (label (getArea w _conversationArea)) in
    if conversationAreaLabelExists then (false, w)
    else
      let conversationAreaCoordinates :=
        getConversationAreaCoordinates (boundingBox (getArea w _conversationArea)) in
      if conversationOverlaps conversationAreaCoordinates w then (false, w)
      else
        let w := JsArray.forEach (_players (this w))
                   (addConversationArea_each _conversationArea
                      conversationAreaCoordinates) w in
        let w := notifyListeners (onConversationAreaUpdated _conversationArea) w in
        let w := set_conversationAreas
                   (JsArray.push (_conversationAreas (this w)) _conversationArea) w in
        (true, w).

Definition addTownListener (listener : ListenerRef) (w : World) : World :=
  set_listeners (JsArray.push (_listeners (this w)) listener) w.

Definition removeTownListener (listener : ListenerRef) (w : World) : World :=
  set_listeners (filter (fun v => v <> listener) (_listeners (this w))) w.

Definition getSessionByToken (token : string) (w : World) : option SessionRef :=
  find (fun p => bool_decide (sessionToken (getSession w p) = token))
    (_sessions (this w)).

Definition disconnectAllPlayers (w : World) : World :=
  notifyListeners onTownDestroyed w.

(** ** Vocabulary of the properties *)

(** What one notification round appends to the call log. *)
Definition announce (c : ListenerCall) (w : World) : list (ListenerRef * ListenerCall) :=
  map (fun l => (l, c)) (_listeners (this w)).

(** The min/max corners of a bounding box, read off the coordinate array. *)
Definition bound (i : nat) (b : BoundingBox) : number :=
  default 0%Q (getConversationAreaCoordinates b !! i).
Definition xMin := bound 0.
Definition yMin := bound 1.
Definition xMax := bound 2.
Definition yMax := bound 3.

(** Two rectangles with a common boundary coordinate. *)
Definition touchingEdge (a b : BoundingBox) : Prop :=
  (xMax a == xMin b)%Q \/ (xMax b == xMin a)%Q \/
  (yMax a == yMin b)%Q \/ (yMax b == yMin a)%Q.

(** The update rounds for the areas carrying label [l], in list order. *)
Definition areaUpdates (w : World) (l : option string) :
    list (ListenerRef * ListenerCall) :=
  flat_map (fun a => announce (onConversationAreaUpdated a) w)
    (filter (fun a => Some (label (getArea w a)) = l) (_conversationAreas (this w))).

(** An area after the participant with label [l] and id [id] has been taken
    out of it the way [destroySession] and [updatePlayerLocation] do. *)
Definition afterLeaving (l : option string) (id : string)
    (area : ServerConversationArea) : ServerConversationArea :=
  if decide (Some (label area) = l)
  then with_occupantsByID
         (JsArray.splice (occupantsByID area)
            (JsArray.indexOf (occupantsByID area) id) 1) area
  else area.

(** The ids of the participants of [ps] standing strictly inside the region
    with coordinates [coords], in list order. *)
Definition insideIds (w : World) (coords : list number) (ps : list PlayerRef) :
    list string :=
  map (fun p => player_id (getPlayer w p))
    (filter (fun p => isPlayerInConversationArea (getPlayer w p) coords = true) ps).

(** What the loops of the controller leave alone: the controller's own
    fields, and the label of every area and the id and location of every
    participant. *)
Definition sameShape (w s : World) : Prop :=
  this s = this w /\
  (forall a, label (getArea s a) = label (getArea w a)) /\
  (forall p, player_id (getPlayer s p) = player_id (getPlayer w p)) /\
  (forall p, location (getPlayer s p) = location (getPlayer w p)).

(** ** Fixtures *)

Definition emptyStore : Store := mkStore ∅ ∅ ∅.

Definition fixtureTown : World :=
  mkWorld (newCoveyTownController "Lobby" true "A1B2C3D4" "secret") emptyStore [].

(** A town and a participant object that has not been admitted yet. *)
Definition fixtureTownGuest : World :=
  setPlayer 1%nat (mkPlayer "p1" "ann" (mkUserLocation 0%Q 0%Q Front false None) None)
    fixtureTown.

(** [n] guests admitted one after the other into a fresh town, provisioning
    succeeding each time. *)
Fixpoint fixtureCrowd (n : nat) : World :=
  match n with
  | O => fixtureTown
  | S k =>
      let guest := mkPlayer ("p" +:+ pretty k) "guest"
                     (mkUserLocation 0%Q 0%Q Front false None) None in
      (addPlayer (fun _ id => Resolved ("video-" +:+ id)) ("token" +:+ pretty k) k
         (setPlayer k guest (fixtureCrowd k))).2
  end.

(** [x] in [0,10] and [x] in [10,20], same [y] range. *)
Definition fixtureBoxWest : BoundingBox := mkBoundingBox 5%Q 5%Q 10%Q 10%Q.
Definition fixtureBoxEast : BoundingBox := mkBoundingBox 15%Q 5%Q 10%Q 10%Q.

Definition fixtureTownWith (r : AreaRef) (a : ServerConversationArea) : World :=
  set_conversationAreas [r] (setArea r a fixtureTown).

Definition fixtureTownEast : World :=
  fixtureTownWith 7%nat (mkArea "east" "tea" ["p1"] fixtureBoxEast).
Definition fixtureBoxMid : BoundingBox := mkBoundingBox 8%Q 5%Q 10%Q 10%Q.
Definition fixtureTownMid : World :=
  fixtureTownWith 5%nat (mkArea "mid" "go" [] fixtureBoxMid).
Definition fixtureTownWest : World :=
  fixtureTownWith 3%nat (mkArea "west" "chess" ["p2"] fixtureBoxWest).

(** A town with one listener, one area and one participant whose recorded
    label is the area's; [occupants] is the area's occupant list. *)
Definition fixtureTownOf (occupants : list string) : World :=
  mkWorld
    (mkController [1%nat] [0%nat] [11%nat] [3%nat] "A1B2C3D4" "Lobby" "secret" true 50)
    (mkStore
       {[1%nat := mkPlayer "p1" "ann"
                    (mkUserLocation 5%Q 5%Q Front false (Some "west")) (Some 3%nat)]}
       {[0%nat := mkSession 1%nat "token" (Some "video")]}
       {[3%nat := mkArea "west" "chess" occupants fixtureBoxWest]})
    [].

(** The participant is not among the occupants. *)
Definition fixtureTownStale : World := fixtureTownOf ["p2"; "p9"].

(** The participant is the only occupant. *)
Definition fixtureTownLast : World := fixtureTownOf ["p1"].

Definition fixtureLocationOutside : UserLocation :=
  mkUserLocation 40%Q 40%Q Back true None.

(** A town with one listener and one participant at (5,5), and a candidate
    area object around that point that arrives with an occupant of its
    own. *)
Definition fixtureTownGhost : World :=
  mkWorld
    (mkController [1%nat] [0%nat] [11%nat] [] "A1B2C3D4" "Lobby" "secret" true 50)
    (mkStore
       {[1%nat := mkPlayer "p1" "ann" (mkUserLocation 5%Q 5%Q Front false None) None]}
       {[0%nat := mkSession 1%nat "token" (Some "video")]}
       {[3%nat := mkArea "west" "chess" ["ghost"] fixtureBoxWest]})
    [].

(** The west town, and a candidate area object overlapping its area. *)
Definition fixtureTownCandidate : World :=
  setArea 5%nat (mkArea "mid" "go" [] fixtureBoxMid) fixtureTownWest.

(** ** The helpers of [Utils.ts] *)

Module Utils.



(** The bottom-left and top-right corners, as x then y. *)
Definition getConversationAreaCoordinates (boudingBox : BoundingBox) : list number :=
  let heightDiff := (height boudingBox / 2)%Q in
  let widthDiff := (width boudingBox / 2)%Q in
  let xBotLeft := (box_x boudingBox - widthDiff)%Q in
  let yBotLeft := (box_y boudingBox - heightDiff)%Q in
  let xTopRight := (box_x boudingBox + widthDiff)%Q in
  let yTopRight := (box_y boudingBox + heightDiff)%Q in
  [xBotLeft; yBotLeft; xTopRight; yTopRight].


End Utils.

(** ** Vocabulary of the further properties *)

(** A participant object standing at [(px, py)]. *)
Definition playerAt (px py : number) : Player :=
  mkPlayer "" "" (mkUserLocation px py Front false None) None.

(** The point [(px, py)] is strictly inside the box. *)
Definition strictlyInside (px py : number) (b : BoundingBox) : Prop :=
  (xMin b < px)%Q /\ (px < xMax b)%Q /\ (yMin b < py)%Q /\ (py < yMax b)%Q.


(** The fields of an area object other than its occupant list. *)
Definition areaData (a : ServerConversationArea) : string * string * BoundingBox :=
  (label a, topic a, boundingBox a).

(** Every area object of [s] has the label, topic and bounding box it has
    in [w]. *)
Definition sameAreaData (w s : World) : Prop :=
  forall a, areaData (getArea s a) = areaData (getArea w a).

(** [R] holds between every element of the list and every later one. *)
Fixpoint pairwise {A : Type} (R : A -> A -> Prop) (l : list A) : Prop :=
  match l with
  | [] => True
  | x :: rest => Forall (R x) rest /\ pairwise R rest
  end.

(** No two areas of the town's list carry the same label. *)
Definition labelsUnique (w : World) : Prop :=
  NoDup (map (fun a => label (getArea w a)) (_conversationAreas (this w))).

(** The loop condition of [conversationOverlaps] is false between the boxes
    of the area objects [a] and [b]. *)
Definition apart (w : World) (a b : AreaRef) : Prop :=
  overlapCondition (getConversationAreaCoordinates (boundingBox (getArea w a)))
    (getConversationAreaCoordinates (boundingBox (getArea w b))) = false.

(** No two areas of the town's list overlap. *)
Definition nonOverlapping (w : World) : Prop :=
  pairwise (apart w) (_conversationAreas (this w)).

(** The operations a caller can run on a town. *)
Inductive Operation :=
  | OpAddPlayer (videoClient : IVideoClient) (token : string) (newPlayer : PlayerRef)
  | OpDestroySession (session : SessionRef)
  | OpUpdatePlayerLocation (player : PlayerRef) (location' : UserLocation)
  | OpAddConversationArea (a : AreaRef)
  | OpAddTownListener (listener : ListenerRef)
  | OpRemoveTownListener (listener : ListenerRef)
  | OpDisconnectAllPlayers.

Definition run (op : Operation) (w : World) : World :=
  match op with
  | OpAddPlayer videoClient token newPlayer => (addPlayer videoClient token newPlayer w).2
  | OpDestroySession session => destroySession session w
  | OpUpdatePlayerLocation player location' => updatePlayerLocation player location' w
  | OpAddConversationArea a => (addConversationArea a w).2
  | OpAddTownListener listener => addTownListener listener w
  | OpRemoveTownListener listener => removeTownListener listener w
  | OpDisconnectAllPlayers => disconnectAllPlayers w
  end.

(** The west town, and a candidate area object east of its area, touching
    it. *)
Definition fixtureTownTwoAreas : World :=
  setArea 7%nat (mkArea "east" "tea" [] fixtureBoxEast) fixtureTownWest.

(** World [s] has the listeners of [w], and its call log is the log of [w]
    followed by calls to listeners of [w] only. *)
Definition callsOnlyRegistered (w s : World) : Prop :=
  _listeners (this s) = _listeners (this w) /\
  exists new, calls s = calls w ++ new /\
              Forall (fun lc => lc.1 ∈ _listeners (this w)) new.

(** The town of [fixtureTownStale] and a second participant object, not
    admitted yet. *)
Definition fixtureTownNewcomer : World :=
  setPlayer 2%nat
    (mkPlayer "p2" "bob" (mkUserLocation 30%Q 30%Q Front false None) None)
    fixtureTownStale.

(** The listener rounds [destroySession] makes for an area carrying the
    departing participant's label: the update, and the destruction when the
    occupant list has become empty. *)
Definition leaveRounds (w : World) (l : option string) (id : string) (a : AreaRef) :
    list (ListenerRef * ListenerCall) :=
  announce (onConversationAreaUpdated a) w ++
  (if decide (length (occupantsByID (afterLeaving l id (getArea w a))) = 0%nat)
   then announce (onConversationAreaDestroyed a) w
   else []).

(** A participant object with another active-area reference. *)
Definition withActive (o : option AreaRef) (p : Player) : Player :=
  mkPlayer (player_id p) (userName p) (location p) o.

(** The areas of the town carrying label [l], in list order. *)
Definition areasLabelled (w : World) (l : option string) : list AreaRef :=
  filter (fun a => Some (label (getArea w a)) = l) (_conversationAreas (this w)).

(** The active-area reference [updatePlayerLocation] leaves when the label
    changes from [old] to [new]: the last area carrying the new label, else
    nothing when some area carried the old label, else what it was. *)
Definition activeAfterMove (w : World) (old new : option string)
    (before : option AreaRef) : option AreaRef :=
  match last (areasLabelled w new) with
  | Some r => Some r
  | None => if decide (areasLabelled w old = []) then before else None
  end.

(** An area after the participant with id [id] has entered it under label
    [l] the way [updatePlayerLocation] does. *)
Definition afterEntering (l : option string) (id : string)
    (area : ServerConversationArea) : ServerConversationArea :=
  if decide (Some (label area) = l)
  then with_occupantsByID (JsArray.push (occupantsByID area) id) area
  else area.

(** The town of [fixtureTownGhost] once its candidate area has been
    accepted: the participant is an occupant though its recorded label is
    none. *)
Definition fixtureTownReturning : World := (addConversationArea 3%nat fixtureTownGhost).2.

Definition fixtureLocationWest : UserLocation :=
  mkUserLocation 6%Q 6%Q Left false (Some "west").

(** The west town once the touching east area has been accepted too. *)
Definition fixtureTownBoth : World := run (OpAddConversationArea 7%nat) fixtureTownTwoAreas.

(** * Properties *)

(** ** Array helpers *)

Section ArrayFacts.
Context {A S : Type}.

(** Loop invariant rule for [forEach]: the invariant speaks of the elements
    already visited; the callback receives each element with its index. *)
Lemma forEachFrom_invariant (I : list A -> S -> Prop) (body : A -> nat -> S -> S)
    (l : list A) :
  forall (todo done : list A) (s : S),
    l = done ++ todo ->
    I done s ->
    (forall pre x post j s',
       l = pre ++ x :: post -> j = length pre ->
       I pre s' -> I (pre ++ [x]) (body x j s')) ->
    I l (JsArray.forEachFrom (length done) todo body s).
Proof.
  induction todo as [|x todo IH]; intros done s Hl Hs Hstep; simpl.
  - rewrite app_nil_r in Hl. by subst.
  - assert (Hl' : l = (done ++ [x]) ++ todo) by (by rewrite <- app_assoc).
    specialize (IH (done ++ [x]) (body x (length done) s) Hl').
    rewrite length_app in IH. simpl in IH.
    replace (length done + 1)%nat with (Datatypes.S (length done)) in IH by lia.
    apply IH; [|exact Hstep].
    by apply (Hstep done x todo).
Qed.

Lemma forEach_invariant (I : list A -> S -> Prop) (body : A -> nat -> S -> S)
    (l : list A) (s : S) :
  I [] s ->
  (forall pre x post j s',
     l = pre ++ x :: post -> j = length pre ->
     I pre s' -> I (pre ++ [x]) (body x j s')) ->
  I l (JsArray.forEach l body s).
Proof.
  intros H0 Hstep.
  exact (forEachFrom_invariant I body l l [] s eq_refl H0 Hstep).
Qed.

(** A property kept by every iteration is kept by the loop. *)
Lemma forEach_preserves (P : S -> Prop) (body : A -> nat -> S -> S)
    (l : list A) (s : S) :
  P s -> (forall x j s', P s' -> P (body x j s')) -> P (JsArray.forEach l body s).
Proof.
  intros H0 Hstep.
  apply (forEach_invariant (fun _ => P) body l s H0). intros; auto.
Qed.
End ArrayFacts.

Lemma splice_minus_one {A : Type} (arr : list A) :
  JsArray.splice arr (-1) 1 = removelast arr.
Proof.
  unfold JsArray.splice.
  destruct (decide (arr = [])) as [->|Hne]; [reflexivity|].
  assert (Hlen : (0 < length arr)%nat) by (destruct arr; simpl; [done|lia]).
  change (-1 <? 0) with true. cbv iota.
  set (len := Z.of_nat (length arr)).
  replace (Z.max (len + -1) 0) with (len - 1) by lia.
  replace (Z.min (Z.max 1 0) (len - (len - 1))) with 1 by lia.
  replace (Z.to_nat (len - 1 + 1)) with (length arr) by lia.
  replace (Z.to_nat (len - 1)) with (Nat.pred (length arr)) by lia.
  rewrite drop_all, app_nil_r.
  symmetry. apply removelast_firstn_len.
Qed.

Lemma indexOfFrom_absent (arr : list string) (x : string) (i : Z) :
  x ∉ arr -> JsArray.indexOfFrom i arr x = -1.
Proof.
  revert i. induction arr as [|y arr IH]; intros i Hx; simpl; [done|].
  destruct (decide (y = x)) as [->|_].
  - exfalso. apply Hx. left.
  - apply IH. intros Hin. apply Hx. by right.
Qed.

Lemma indexOf_absent (arr : list string) (x : string) :
  x ∉ arr -> JsArray.indexOf arr x = -1.
Proof. apply indexOfFrom_absent. Qed.

(** ** Store and listener facts *)

Lemma notifyListeners_eq (c : ListenerCall) (w : World) :
  notifyListeners c w = mkWorld (this w) (store w) (calls w ++ announce c w).
Proof.
  unfold notifyListeners, announce.
  assert (H : forall (l : list ListenerRef),
             JsArray.forEach l (fun listener (_ : nat) w0 => invoke listener c w0) w =
             mkWorld (this w) (store w) (calls w ++ map (fun l => (l, c)) l)).
  { intros l.
    apply (forEach_invariant
             (fun pre s => s = mkWorld (this w) (store w)
                                 (calls w ++ map (fun l => (l, c)) pre))).
    - simpl. rewrite app_nil_r. by destruct w.
    - intros pre x post j s' _ _ ->. unfold invoke, JsArray.push. simpl.
      by rewrite map_app, app_assoc. }
  apply H.
Qed.

Lemma this_notifyListeners c w : this (notifyListeners c w) = this w.
Proof. by rewrite notifyListeners_eq. Qed.

Lemma store_notifyListeners c w : store (notifyListeners c w) = store w.
Proof. by rewrite notifyListeners_eq. Qed.

Lemma calls_notifyListeners c w :
  calls (notifyListeners c w) = calls w ++ announce c w.
Proof. by rewrite notifyListeners_eq. Qed.

Lemma getArea_setArea a a' v w :
  getArea (setArea a v w) a' = if decide (a = a') then v else getArea w a'.
Proof.
  unfold getArea, setArea. simpl.
  destruct (decide (a = a')) as [->|Hne].
  - by rewrite lookup_total_insert_eq.
  - by rewrite lookup_total_insert_ne.
Qed.

Lemma getPlayer_setPlayer p p' v w :
  getPlayer (setPlayer p v w) p' = if decide (p = p') then v else getPlayer w p'.
Proof.
  unfold getPlayer, setPlayer. simpl.
  destruct (decide (p = p')) as [->|Hne].
  - by rewrite lookup_total_insert_eq.
  - by rewrite lookup_total_insert_ne.
Qed.

Lemma getSession_setSession s s' v w :
  getSession (setSession s v w) s' = if decide (s = s') then v else getSession w s'.
Proof.
  unfold getSession, setSession. simpl.
  destruct (decide (s = s')) as [->|Hne].
  - by rewrite lookup_total_insert_eq.
  - by rewrite lookup_total_insert_ne.
Qed.

(** ** Geometry *)

Lemma num_le_eq (p q : number) : (p == q)%Q -> num_le (Some p) (Some q) = true.
Proof. intros H. simpl. apply Qle_bool_iff. rewrite H. apply Qle_refl. Qed.

Lemma overlapCondition_sym (m n : list number) :
  overlapCondition m n = overlapCondition n m.
Proof.
  unfold overlapCondition, num_ge. f_equal.
  destruct (num_le (n !! 2%nat) (m !! 0%nat)), (num_le (m !! 2%nat) (n !! 0%nat)),
    (num_le (m !! 3%nat) (n !! 1%nat)), (num_le (n !! 3%nat) (m !! 1%nat));
    reflexivity.
Qed.

Lemma conversationOverlaps_single (m : list number) (w : World) (r : AreaRef) :
  _conversationAreas (this w) = [r] ->
  conversationOverlaps m w =
  overlapCondition m (getConversationAreaCoordinates (boundingBox (getArea w r))).
Proof.
  intros H. unfold conversationOverlaps. rewrite H. simpl.
  by destruct (overlapCondition _ _).
Qed.

Lemma conversationOverlapsLoop_true (w : World) (m : list number) (areas : list AreaRef) :
  conversationOverlapsLoop w areas m = true <->
  exists r, r ∈ areas /\
    overlapCondition m (getConversationAreaCoordinates (boundingBox (getArea w r))) = true.
Proof.
  induction areas as [|a areas IH]; simpl.
  - split; [done|]. intros (r & Hr & _). by apply elem_of_nil in Hr.
  - destruct (overlapCondition m _) eqn:E.
    + split; [|done]. intros _. exists a. split; [left|done].
    + rewrite IH. split.
      * intros (r & Hr & Ho). exists r. split; [by right|done].
      * intros (r & Hr & Ho). apply elem_of_cons in Hr as [->|Hr].
        -- congruence.
        -- by exists r.
Qed.

Lemma labelExistsLoop_true (w : World) (l : string) (areas : list AreaRef) :
  labelExistsLoop w areas l = true <->
  exists r, r ∈ areas /\ label (getArea w r) = l.
Proof.
  induction areas as [|a areas IH]; simpl.
  - split; [done|]. intros (r & Hr & _). by apply elem_of_nil in Hr.
  - destruct (decide (label (getArea w a) = l)) as [E|E].
    + split; [|done]. intros _. exists a. split; [left|done].
    + rewrite IH. split.
      * intros (r & Hr & Ho). exists r. split; [by right|done].
      * intros (r & Hr & Ho). apply elem_of_cons in Hr as [->|Hr].
        -- congruence.
        -- by exists r.
Qed.

(** C5: two rectangles with a common boundary coordinate (the xMax of one is
    the xMin of the other, or the yMax of one is the yMin of the other) are
    reported as non-overlapping, by the loop condition and by
    [conversationOverlaps] run against a town holding the other rectangle. *)
Theorem touching_edges_do_not_overlap (a b : BoundingBox) (w : World) (r : AreaRef) :
  touchingEdge a b ->
  _conversationAreas (this w) = [r] ->
  boundingBox (getArea w r) = b ->
  overlapCondition (getConversationAreaCoordinates a)
    (getConversationAreaCoordinates b) = false /\
  conversationOverlaps (getConversationAreaCoordinates a) w = false.
Proof.
  intros Ht Hw Hb.
  assert (Ho : overlapCondition (getConversationAreaCoordinates a)
                 (getConversationAreaCoordinates b) = false).
  { unfold overlapCondition, num_ge. apply negb_false_iff.
    unfold touchingEdge in Ht.
    change (getConversationAreaCoordinates a !! 0%nat) with (Some (xMin a)).
    change (getConversationAreaCoordinates a !! 1%nat) with (Some (yMin a)).
    change (getConversationAreaCoordinates a !! 2%nat) with (Some (xMax a)).
    change (getConversationAreaCoordinates a !! 3%nat) with (Some (yMax a)).
    change (getConversationAreaCoordinates b !! 0%nat) with (Some (xMin b)).
    change (getConversationAreaCoordinates b !! 1%nat) with (Some (yMin b)).
    change (getConversationAreaCoordinates b !! 2%nat) with (Some (xMax b)).
    change (getConversationAreaCoordinates b !! 3%nat) with (Some (yMax b)).
    destruct Ht as [H|[H|[H|H]]].
    - rewrite (num_le_eq _ _ H). by rewrite !orb_true_r.
    - rewrite (num_le_eq _ _ H). reflexivity.
    - rewrite (num_le_eq _ _ H). by rewrite !orb_true_r.
    - rewrite (num_le_eq _ _ H). by rewrite !orb_true_r. }
  split; [exact Ho|].
  rewrite (conversationOverlaps_single _ w r Hw), Hb. exact Ho.
Qed.

Lemma touching_edges_do_not_overlap_witness :
  touchingEdge fixtureBoxWest fixtureBoxEast /\
  _conversationAreas (this fixtureTownEast) = [7%nat] /\
  boundingBox (getArea fixtureTownEast 7%nat) = fixtureBoxEast /\
  overlapCondition (getConversationAreaCoordinates fixtureBoxWest)
    (getConversationAreaCoordinates fixtureBoxEast) = false /\
  conversationOverlaps (getConversationAreaCoordinates fixtureBoxWest)
    fixtureTownEast = false.
Proof.
  assert (H1 : touchingEdge fixtureBoxWest fixtureBoxEast) by (left; reflexivity).
  assert (H2 : _conversationAreas (this fixtureTownEast) = [7%nat]) by reflexivity.
  assert (H3 : boundingBox (getArea fixtureTownEast 7%nat) = fixtureBoxEast)
    by reflexivity.
  pose proof (touching_edges_do_not_overlap _ _ _ _ H1 H2 H3) as [H4 H5].
  repeat split; assumption.
Defined.

(** C6: the loop condition of [conversationOverlaps] is symmetric in the two
    rectangles, and so is [conversationOverlaps] itself when each rectangle
    in turn is the candidate and the other the town's only area. *)
Theorem overlap_is_symmetric (a b : BoundingBox) (wa wb : World) (ra rb : AreaRef) :
  _conversationAreas (this wa) = [ra] ->
  boundingBox (getArea wa ra) = a ->
  _conversationAreas (this wb) = [rb] ->
  boundingBox (getArea wb rb) = b ->
  overlapCondition (getConversationAreaCoordinates a)
    (getConversationAreaCoordinates b) =
  overlapCondition (getConversationAreaCoordinates b)
    (getConversationAreaCoordinates a) /\
  conversationOverlaps (getConversationAreaCoordinates a) wb =
  conversationOverlaps (getConversationAreaCoordinates b) wa.
Proof.
  intros Ha Hba Hb Hbb. split; [apply overlapCondition_sym|].
  rewrite (conversationOverlaps_single _ wb rb Hb), Hbb.
  rewrite (conversationOverlaps_single _ wa ra Ha), Hba.
  apply overlapCondition_sym.
Qed.

Lemma overlap_is_symmetric_witness :
  _conversationAreas (this fixtureTownWest) = [3%nat] /\
  boundingBox (getArea fixtureTownWest 3%nat) = fixtureBoxWest /\
  _conversationAreas (this fixtureTownMid) = [5%nat] /\
  boundingBox (getArea fixtureTownMid 5%nat) = fixtureBoxMid /\
  overlapCondition (getConversationAreaCoordinates fixtureBoxWest)
    (getConversationAreaCoordinates fixtureBoxMid) =
  overlapCondition (getConversationAreaCoordinates fixtureBoxMid)
    (getConversationAreaCoordinates fixtureBoxWest) /\
  conversationOverlaps (getConversationAreaCoordinates fixtureBoxWest) fixtureTownMid =
  conversationOverlaps (getConversationAreaCoordinates fixtureBoxMid) fixtureTownWest.
Proof.
  assert (H1 : _conversationAreas (this fixtureTownWest) = [3%nat]) by reflexivity.
  assert (H2 : boundingBox (getArea fixtureTownWest 3%nat) = fixtureBoxWest)
    by reflexivity.
  assert (H3 : _conversationAreas (this fixtureTownMid) = [5%nat]) by reflexivity.
  assert (H4 : boundingBox (getArea fixtureTownMid 5%nat) = fixtureBoxMid)
    by reflexivity.
  pose proof (overlap_is_symmetric _ _ _ _ _ _ H1 H2 H3 H4) as [H5 H6].
  repeat split; assumption.
Defined.

(** ** Listeners and occupancy *)

Lemma destroySession_keeps_listeners_and_areas (session : SessionRef) (w : World) :
  _listeners (this (destroySession session w)) = _listeners (this w) /\
  _conversationAreas (this (destroySession session w)) = _conversationAreas (this w).
Proof.
  unfold destroySession. rewrite this_notifyListeners.
  apply (forEach_preserves
           (fun s => _listeners (this s) = _listeners (this w) /\
                     _conversationAreas (this s) = _conversationAreas (this w))).
  - split; reflexivity.
  - intros x j s' Hs'. unfold destroySession_each.
    destruct (decide (Some (label (getArea s' x)) = _)); [|exact Hs'].
    destruct (decide (length _ = 0%nat)).
    + by rewrite !this_notifyListeners.
    + by rewrite !this_notifyListeners.
Qed.

Lemma addPlayer_this (videoClient : IVideoClient) (token : string)
    (newPlayer : PlayerRef) (w : World) :
  this (addPlayer videoClient token newPlayer w).2 =
  mkController (_players (this w) ++ [newPlayer])
    (_sessions (this w) ++ [fresh (dom (sessionObjs (store w)))])
    (_listeners (this w)) (_conversationAreas (this w)) (_coveyTownID (this w))
    (_friendlyName (this w)) (_townUpdatePassword (this w))
    (_isPubliclyListed (this w)) (_capacity (this w)).
Proof.
  unfold addPlayer, addPlayer_enter, addPlayer_resume, newPlayerSession. simpl.
  destruct (videoClient _ _); simpl; [|reflexivity].
  by rewrite this_notifyListeners.
Qed.

(** C9: [occupancy] is the number of registered listeners; [addPlayer] and
    [destroySession] leave it as it is, [addTownListener] adds one; it need
    not be the number of participants. *)
Theorem occupancy_counts_listeners :
  (forall w, occupancy w = Z.of_nat (length (_listeners (this w)))) /\
  (forall videoClient token newPlayer w,
     occupancy (addPlayer videoClient token newPlayer w).2 = occupancy w) /\
  (forall session w, occupancy (destroySession session w) = occupancy w) /\
  (forall listener w, occupancy (addTownListener listener w) = occupancy w + 1) /\
  (let w := (addPlayer (fun _ _ => Resolved "video") "token" 1%nat fixtureTownGuest).2 in
   occupancy w = 0 /\ length (players w) = 1%nat).
Proof.
  split; [reflexivity|]. split; [|split; [|split]].
  - intros. unfold occupancy. by rewrite addPlayer_this.
  - intros. unfold occupancy.
    by rewrite (proj1 (destroySession_keeps_listeners_and_areas session w)).
  - intros. unfold occupancy, addTownListener, JsArray.push. simpl.
    rewrite length_app. simpl. lia.
  - split; reflexivity.
Qed.

(** ** Admission *)

Lemma addPlayer_rejected (videoClient : IVideoClient) (token : string)
    (newPlayer : PlayerRef) (w : World) (reason : string) :
  videoClient (_coveyTownID (this w)) (player_id (getPlayer w newPlayer)) =
    Rejected reason ->
  addPlayer videoClient token newPlayer w =
  (Rejected reason,
   set_players (_players (this w) ++ [newPlayer])
     (set_sessions (_sessions (this w) ++ [fresh (dom (sessionObjs (store w)))])
        (setSession (fresh (dom (sessionObjs (store w))))
           (mkSession newPlayer token None) w))).
Proof.
  intros H. unfold addPlayer, addPlayer_enter, addPlayer_resume, newPlayerSession.
  simpl.
  change (videoClient _ _)
    with (videoClient (_coveyTownID (this w)) (player_id (getPlayer w newPlayer))).
  by rewrite H.
Qed.

Lemma addPlayer_resolved (videoClient : IVideoClient) (token : string)
    (newPlayer : PlayerRef) (w : World) (tok : string) :
  videoClient (_coveyTownID (this w)) (player_id (getPlayer w newPlayer)) =
    Resolved tok ->
  addPlayer videoClient token newPlayer w =
  (Resolved (fresh (dom (sessionObjs (store w)))),
   notifyListeners (onPlayerJoined newPlayer)
     (setSession (fresh (dom (sessionObjs (store w))))
        (mkSession newPlayer token (Some tok))
        (set_players (_players (this w) ++ [newPlayer])
           (set_sessions (_sessions (this w) ++ [fresh (dom (sessionObjs (store w)))])
              (setSession (fresh (dom (sessionObjs (store w))))
                 (mkSession newPlayer token None) w))))).
Proof.
  intros H. unfold addPlayer, addPlayer_enter, addPlayer_resume, newPlayerSession.
  simpl.
  change (videoClient _ _)
    with (videoClient (_coveyTownID (this w)) (player_id (getPlayer w newPlayer))).
  rewrite H. do 3 f_equal.
  unfold getSession. simpl. by rewrite lookup_total_insert_eq.
Qed.

(** C1, as the code has it: when provisioning fails the call fails with the
    provisioning error, the participant list and the session list are the
    ones before the call followed by the new participant and by the new
    session (a session object that did not exist before, holding the
    participant and no video token), and no listener is called. *)
Theorem failed_provisioning_keeps_the_new_entries (videoClient : IVideoClient)
    (token : string) (newPlayer : PlayerRef) (w : World) (reason : string) :
  videoClient (_coveyTownID (this w)) (player_id (getPlayer w newPlayer)) =
    Rejected reason ->
  let r := addPlayer videoClient token newPlayer w in
  r.1 = Rejected reason /\
  _players (this r.2) = _players (this w) ++ [newPlayer] /\
  (exists s, (s ∉ dom (sessionObjs (store w))) /\
             _sessions (this r.2) = _sessions (this w) ++ [s] /\
             getSession r.2 s = mkSession newPlayer token None) /\
  calls r.2 = calls w.
Proof.
  intros H r. subst r. rewrite (addPlayer_rejected _ _ _ _ _ H). simpl.
  split; [reflexivity|]. split; [reflexivity|]. split; [|reflexivity].
  exists (fresh (dom (sessionObjs (store w)))).
  split; [apply is_fresh|]. split; [reflexivity|].
  unfold getSession. simpl. by rewrite lookup_total_insert_eq.
Qed.

Lemma failed_provisioning_keeps_the_new_entries_witness :
  let r := addPlayer (fun _ _ => Rejected "no video") "token" 1%nat fixtureTownGuest in
  r.1 = Rejected "no video" /\
  _players (this r.2) = _players (this fixtureTownGuest) ++ [1%nat] /\
  (exists s, (s ∉ dom (sessionObjs (store fixtureTownGuest))) /\
             _sessions (this r.2) = _sessions (this fixtureTownGuest) ++ [s] /\
             getSession r.2 s = mkSession 1%nat "token" None) /\
  calls r.2 = calls fixtureTownGuest.
Proof.
  exact (failed_provisioning_keeps_the_new_entries
           (fun _ _ => Rejected "no video") "token" 1%nat fixtureTownGuest "no video"
           eq_refl).
Defined.

(** C1, as the spec words it, fails: provisioning is rejected for the guest of
    [fixtureTownGuest], and the participant list and the session list both
    differ from what they were. *)
Lemma failed_provisioning_changes_the_lists :
  let r := addPlayer (fun _ _ => Rejected "no video") "token" 1%nat fixtureTownGuest in
  r.1 = Rejected "no video" /\
  _players (this fixtureTownGuest) = [] /\
  _sessions (this fixtureTownGuest) = [] /\
  _players (this r.2) = [1%nat] /\
  _sessions (this r.2) = [0%nat] /\
  _players (this r.2) <> _players (this fixtureTownGuest) /\
  _sessions (this r.2) <> _sessions (this fixtureTownGuest).
Proof.
  vm_compute. repeat split; try reflexivity; discriminate.
Qed.

(** *** The capacity field *)

Create Rewrite HintDb capacity.

Section CapacityIsNeverRead.
Variable c : Z.

Lemma forEach_set_capacity {A : Type} (body : A -> nat -> World -> World)
    (l : list A) :
  (forall x j s, body x j (set_capacity c s) = set_capacity c (body x j s)) ->
  forall s,
    JsArray.forEach l body (set_capacity c s) =
    set_capacity c (JsArray.forEach l body s).
Proof.
  intros Hbody. unfold JsArray.forEach. generalize 0%nat.
  induction l as [|x l IH]; intros i s; simpl; [reflexivity|].
  by rewrite Hbody, IH.
Qed.

Lemma notifyListeners_set_capacity call w :
  notifyListeners call (set_capacity c w) = set_capacity c (notifyListeners call w).
Proof. by rewrite !notifyListeners_eq. Qed.

Lemma getArea_set_capacity w a : getArea (set_capacity c w) a = getArea w a.
Proof. reflexivity. Qed.

Lemma getPlayer_set_capacity w p : getPlayer (set_capacity c w) p = getPlayer w p.
Proof. reflexivity. Qed.

Lemma getSession_set_capacity w s : getSession (set_capacity c w) s = getSession w s.
Proof. reflexivity. Qed.

Lemma setArea_set_capacity w a v :
  setArea a v (set_capacity c w) = set_capacity c (setArea a v w).
Proof. reflexivity. Qed.

Lemma setActiveConversationArea_set_capacity w p a :
  setActiveConversationArea p a (set_capacity c w) =
  set_capacity c (setActiveConversationArea p a w).
Proof. reflexivity. Qed.

Lemma updateLocation_set_capacity w p l :
  updateLocation p l (set_capacity c w) = set_capacity c (updateLocation p l w).
Proof. reflexivity. Qed.

Lemma fields_set_capacity w :
  _players (this (set_capacity c w)) = _players (this w) /\
  _conversationAreas (this (set_capacity c w)) = _conversationAreas (this w).
Proof. split; reflexivity. Qed.

Hint Rewrite notifyListeners_set_capacity getArea_set_capacity getPlayer_set_capacity
  getSession_set_capacity setArea_set_capacity setActiveConversationArea_set_capacity
  updateLocation_set_capacity : capacity.

Lemma addPlayer_set_capacity videoClient token newPlayer w :
  addPlayer videoClient token newPlayer (set_capacity c w) =
  ((addPlayer videoClient token newPlayer w).1,
   set_capacity c (addPlayer videoClient token newPlayer w).2).
Proof.
  unfold addPlayer, addPlayer_enter, addPlayer_resume, newPlayerSession. simpl.
  change (videoClient _ _)
    with (videoClient (_coveyTownID (this w)) (player_id (getPlayer w newPlayer))).
  destruct (videoClient _ _); simpl; [|reflexivity].
  by rewrite <- notifyListeners_set_capacity.
Qed.

Lemma destroySession_each_set_capacity session x j s :
  destroySession_each session x j (set_capacity c s) =
  set_capacity c (destroySession_each session x j s).
Proof.
  unfold destroySession_each. autorewrite with capacity.
  repeat case_decide; reflexivity.
Qed.

Lemma destroySession_set_capacity session w :
  destroySession session (set_capacity c w) =
  set_capacity c (destroySession session w).
Proof.
  unfold destroySession. rewrite <- notifyListeners_set_capacity. f_equal.
  rewrite <- forEach_set_capacity by apply destroySession_each_set_capacity.
  reflexivity.
Qed.

Lemma updatePlayerLocation_leave_set_capacity player x j s :
  updatePlayerLocation_leave player x j (set_capacity c s) =
  set_capacity c (updatePlayerLocation_leave player x j s).
Proof.
  unfold updatePlayerLocation_leave. autorewrite with capacity.
  case_decide; reflexivity.
Qed.

Lemma updatePlayerLocation_enter_set_capacity player location' x j s :
  updatePlayerLocation_enter player location' x j (set_capacity c s) =
  set_capacity c (updatePlayerLocation_enter player location' x j s).
Proof.
  unfold updatePlayerLocation_enter. autorewrite with capacity.
  case_decide; reflexivity.
Qed.

Lemma updatePlayerLocation_set_capacity player location' w :
  updatePlayerLocation player location' (set_capacity c w) =
  set_capacity c (updatePlayerLocation player location' w).
Proof.
  unfold updatePlayerLocation.
  rewrite <- notifyListeners_set_capacity, <- updateLocation_set_capacity.
  do 2 f_equal. rewrite getPlayer_set_capacity.
  case_decide; [|reflexivity].
  rewrite (proj2 (fields_set_capacity w)).
  rewrite (forEach_set_capacity _ _ (updatePlayerLocation_leave_set_capacity player)).
  rewrite (proj2 (fields_set_capacity _)).
  by rewrite (forEach_set_capacity _ _
                (updatePlayerLocation_enter_set_capacity player location')).
Qed.

Lemma addConversationArea_set_capacity a w :
  addConversationArea a (set_capacity c w) =
  ((addConversationArea a w).1, set_capacity c (addConversationArea a w).2).
Proof.
  unfold addConversationArea.
  change (getArea (set_capacity c w) a) with (getArea w a).
  change (_conversationAreas (this (set_capacity c w)))
    with (_conversationAreas (this w)).
  assert (Hl : forall l areas,
             labelExistsLoop (set_capacity c w) areas l = labelExistsLoop w areas l).
  { intros l areas. induction areas as [|r areas IH]; simpl; [reflexivity|].
    by rewrite IH. }
  assert (Ho : forall m, conversationOverlaps m (set_capacity c w) =
                         conversationOverlaps m w).
  { intros m. unfold conversationOverlaps.
    change (_conversationAreas (this (set_capacity c w)))
      with (_conversationAreas (this w)).
    induction (_conversationAreas (this w)) as [|r areas IH]; simpl; [reflexivity|].
    by rewrite IH. }
  rewrite Hl, Ho.
  destruct (decide (topic (getArea w a) = "")); [reflexivity|].
  destruct (labelExistsLoop w _ _); [reflexivity|].
  destruct (conversationOverlaps _ w); [reflexivity|].
  simpl. f_equal.
  change (_players (this (set_capacity c w))) with (_players (this w)).
  rewrite forEach_set_capacity.
  - rewrite notifyListeners_set_capacity. reflexivity.
  - intros x j s. unfold addConversationArea_each.
    change (getPlayer (set_capacity c s) x) with (getPlayer s x).
    destruct (isPlayerInConversationArea _ _); reflexivity.
Qed.

End CapacityIsNeverRead.

Lemma fixtureCrowd_counts (n : nat) :
  _capacity (this (fixtureCrowd n)) = 50 /\
  length (_players (this (fixtureCrowd n))) = n.
Proof.
  induction n as [|n [IHc IHp]]; [split; reflexivity|].
  cbn [fixtureCrowd]. rewrite addPlayer_this. simpl. rewrite length_app, IHp. simpl.
  split; [exact IHc|lia].
Qed.

(** C10: when provisioning succeeds [addPlayer] admits the participant
    whatever the capacity is: the call resolves with the new session, the
    participant is appended to the participant list, the capacity field is
    neither changed nor read (no operation of the controller behaves
    differently under another capacity), and 51 admissions into a fresh town
    leave 51 participants in a town of capacity 50. *)
Theorem addPlayer_ignores_capacity (videoClient : IVideoClient) (token : string)
    (newPlayer : PlayerRef) (w : World) (tok : string) :
  videoClient (_coveyTownID (this w)) (player_id (getPlayer w newPlayer)) =
    Resolved tok ->
  let r := addPlayer videoClient token newPlayer w in
  (exists s, r.1 = Resolved s /\ _sessions (this r.2) = _sessions (this w) ++ [s] /\
             getSession r.2 s = mkSession newPlayer token (Some tok)) /\
  _players (this r.2) = _players (this w) ++ [newPlayer] /\
  capacity r.2 = capacity w /\
  (forall c,
     addPlayer videoClient token newPlayer (set_capacity c w) =
       (r.1, set_capacity c r.2) /\
     (forall session, destroySession session (set_capacity c w) =
                      set_capacity c (destroySession session w)) /\
     (forall player location', updatePlayerLocation player location' (set_capacity c w) =
                               set_capacity c (updatePlayerLocation player location' w)) /\
     (forall a, addConversationArea a (set_capacity c w) =
                ((addConversationArea a w).1, set_capacity c (addConversationArea a w).2)) /\
     (forall listener,
        addTownListener listener (set_capacity c w) =
          set_capacity c (addTownListener listener w) /\
        removeTownListener listener (set_capacity c w) =
          set_capacity c (removeTownListener listener w)) /\
     disconnectAllPlayers (set_capacity c w) = set_capacity c (disconnectAllPlayers w)) /\
  (capacity (fixtureCrowd 51) = 50 /\ length (players (fixtureCrowd 51)) = 51%nat).
Proof.
  intros H r.
  split; [|split; [|split; [|split]]].
  - exists (fresh (dom (sessionObjs (store w)))). subst r.
    rewrite (addPlayer_resolved _ _ _ _ _ H). simpl.
    split; [reflexivity|]. rewrite this_notifyListeners. split; [reflexivity|].
    unfold getSession. rewrite store_notifyListeners. simpl.
    by rewrite lookup_total_insert_eq.
  - subst r. by rewrite addPlayer_this.
  - subst r. unfold capacity. by rewrite addPlayer_this.
  - intros c. split; [apply addPlayer_set_capacity|].
    split; [intros; apply destroySession_set_capacity|].
    split; [intros; apply updatePlayerLocation_set_capacity|].
    split; [intros; apply addConversationArea_set_capacity|].
    split; [intros; split; reflexivity|].
    apply notifyListeners_set_capacity.
  - apply fixtureCrowd_counts.
Qed.

Lemma addPlayer_ignores_capacity_witness :
  let videoClient : IVideoClient := fun _ _ => Resolved "video" in
  let w := set_capacity 0 fixtureTownGuest in
  let r := addPlayer videoClient "token" 1%nat w in
  videoClient (_coveyTownID (this w)) (player_id (getPlayer w 1%nat)) =
    Resolved "video" /\
  capacity w = 0 /\
  r.1 = Resolved 0%nat /\
  _players (this r.2) = _players (this w) ++ [1%nat] /\
  capacity r.2 = capacity w.
Proof.
  pose proof (addPlayer_ignores_capacity (fun _ _ => Resolved "video") "token" 1%nat
                (set_capacity 0 fixtureTownGuest) "video" eq_refl)
    as (_ & Hp & Hc & _).
  split; [reflexivity|]. split; [reflexivity|]. split; [reflexivity|].
  split; [exact Hp|exact Hc].
Defined.

(** ** Creating conversation areas *)

(** C4: a candidate with an empty topic, or with the label of an existing
    area, or whose bounds overlap those of an existing area, is refused and
    the world (area list, participants, occupant lists, active-area
    references, listener calls) is the one before the call. *)
Theorem refused_area_changes_nothing (a : AreaRef) (w : World) :
  topic (getArea w a) = "" \/
  (exists r, r ∈ _conversationAreas (this w) /\
             label (getArea w r) = label (getArea w a)) \/
  (exists r, r ∈ _conversationAreas (this w) /\
             overlapCondition
               (getConversationAreaCoordinates (boundingBox (getArea w a)))
               (getConversationAreaCoordinates (boundingBox (getArea w r))) = true) ->
  addConversationArea a w = (false, w).
Proof.
  intros H. unfold addConversationArea.
  destruct (decide (topic (getArea w a) = "")) as [|Ht]; [reflexivity|].
  destruct (labelExistsLoop w _ _) eqn:El; [reflexivity|].
  destruct (conversationOverlaps _ w) eqn:Eo; [reflexivity|].
  exfalso. destruct H as [H|[H|H]].
  - contradiction.
  - apply labelExistsLoop_true in H. congruence.
  - apply conversationOverlapsLoop_true in H. unfold conversationOverlaps in Eo.
    congruence.
Qed.

Lemma refused_area_changes_nothing_witness :
  (exists r, r ∈ _conversationAreas (this fixtureTownCandidate) /\
             overlapCondition
               (getConversationAreaCoordinates
                  (boundingBox (getArea fixtureTownCandidate 5%nat)))
               (getConversationAreaCoordinates
                  (boundingBox (getArea fixtureTownCandidate r))) = true) /\
  addConversationArea 5%nat fixtureTownCandidate = (false, fixtureTownCandidate).
Proof.
  assert (H : exists r, r ∈ _conversationAreas (this fixtureTownCandidate) /\
             overlapCondition
               (getConversationAreaCoordinates
                  (boundingBox (getArea fixtureTownCandidate 5%nat)))
               (getConversationAreaCoordinates
                  (boundingBox (getArea fixtureTownCandidate r))) = true).
  { exists 3%nat. split; [constructor|reflexivity]. }
  split; [exact H|].
  exact (refused_area_changes_nothing 5%nat fixtureTownCandidate
           (or_intror (or_intror H))).
Defined.

(** ** Moving *)

Lemma sameShape_refl w : sameShape w w.
Proof. repeat split. Qed.

Lemma sameShape_setOccupants w s a v :
  sameShape w s -> sameShape w (setArea a (with_occupantsByID v (getArea s a)) s).
Proof.
  intros (Ht & Hl & Hi & Hp). split; [exact Ht|]. split; [|split; [exact Hi|exact Hp]].
  intros r. rewrite getArea_setArea. case_decide; [subst; apply Hl|apply Hl].
Qed.

Lemma sameShape_setActiveConversationArea w s p a :
  sameShape w s -> sameShape w (setActiveConversationArea p a s).
Proof.
  intros (Ht & Hl & Hi & Hp). split; [exact Ht|]. split; [exact Hl|].
  unfold setActiveConversationArea.
  split; intros q; rewrite getPlayer_setPlayer; case_decide; subst; simpl; auto.
Qed.

Lemma sameShape_notifyListeners w s c :
  sameShape w s -> sameShape w (notifyListeners c s).
Proof. intros H. rewrite notifyListeners_eq. exact H. Qed.

Lemma announce_sameShape w s c : sameShape w s -> announce c s = announce c w.
Proof. intros (Ht & _). unfold announce. by rewrite Ht. Qed.

Lemma areaUpdates_snoc w l pre x :
  flat_map (fun a => announce (onConversationAreaUpdated a) w)
    (filter (fun a => Some (label (getArea w a)) = l) (pre ++ [x])) =
  flat_map (fun a => announce (onConversationAreaUpdated a) w)
    (filter (fun a => Some (label (getArea w a)) = l) pre) ++
  (if decide (Some (label (getArea w x)) = l)
   then announce (onConversationAreaUpdated x) w else []).
Proof.
  rewrite filter_app, flat_map_app. f_equal.
  rewrite filter_cons, filter_nil. case_decide; simpl; [by rewrite app_nil_r|done].
Qed.

Lemma leave_loop_calls (player : PlayerRef) (w s : World) (areas : list AreaRef) :
  sameShape w s ->
  let s' := JsArray.forEach areas (updatePlayerLocation_leave player) s in
  sameShape w s' /\
  calls s' = calls s ++
    flat_map (fun a => announce (onConversationAreaUpdated a) w)
      (filter (fun a => Some (label (getArea w a)) =
                        conversationLabel (location (getPlayer w player))) areas).
Proof.
  intros Hs. cbv zeta.
  apply (forEach_invariant
           (fun pre s' =>
              sameShape w s' /\
              calls s' = calls s ++
                flat_map (fun a => announce (onConversationAreaUpdated a) w)
                  (filter (fun a => Some (label (getArea w a)) =
                             conversationLabel (location (getPlayer w player))) pre))).
  - split; [exact Hs|]. simpl. by rewrite app_nil_r.
  - intros pre x post j s' _ _ [Hsh Hc]. rewrite areaUpdates_snoc.
    unfold updatePlayerLocation_leave.
    destruct Hsh as (Ht & Hl & Hi & Hp). rewrite Hl, Hp.
    assert (Hsh : sameShape w s') by (repeat split; assumption).
    case_decide.
    + split.
      * by apply sameShape_notifyListeners, sameShape_setActiveConversationArea,
          sameShape_setOccupants.
      * rewrite calls_notifyListeners, app_assoc, <- Hc. f_equal.
        by apply announce_sameShape, sameShape_setActiveConversationArea,
          sameShape_setOccupants.
    + split; [exact Hsh|]. by rewrite app_nil_r.
Qed.

Lemma enter_loop_calls (player : PlayerRef) (location' : UserLocation)
    (w s : World) (areas : list AreaRef) :
  sameShape w s ->
  let s' := JsArray.forEach areas (updatePlayerLocation_enter player location') s in
  sameShape w s' /\
  calls s' = calls s ++
    flat_map (fun a => announce (onConversationAreaUpdated a) w)
      (filter (fun a => Some (label (getArea w a)) = conversationLabel location') areas).
Proof.
  intros Hs. cbv zeta.
  apply (forEach_invariant
           (fun pre s' =>
              sameShape w s' /\
              calls s' = calls s ++
                flat_map (fun a => announce (onConversationAreaUpdated a) w)
                  (filter (fun a => Some (label (getArea w a)) =
                             conversationLabel location') pre))).
  - split; [exact Hs|]. simpl. by rewrite app_nil_r.
  - intros pre x post j s' _ _ [Hsh Hc]. rewrite areaUpdates_snoc.
    unfold updatePlayerLocation_enter.
    destruct Hsh as (Ht & Hl & Hi & Hp). rewrite Hl.
    assert (Hsh : sameShape w s') by (repeat split; assumption).
    case_decide.
    + split.
      * by apply sameShape_notifyListeners, sameShape_setActiveConversationArea,
          sameShape_setOccupants.
      * rewrite calls_notifyListeners, app_assoc, <- Hc. f_equal.
        by apply announce_sameShape, sameShape_setActiveConversationArea,
          sameShape_setOccupants.
    + split; [exact Hsh|]. by rewrite app_nil_r.
Qed.

(** C7: the listener calls made by [updatePlayerLocation] are, in this order:
    when the label changes, one update round for every area carrying the old
    label, then one update round for every area carrying the new label; and
    in every case, last, one round of participant-moved calls.  When the
    label is unchanged the participant-moved round is all there is. *)
Theorem updatePlayerLocation_call_order (player : PlayerRef)
    (location' : UserLocation) (w : World) :
  calls (updatePlayerLocation player location' w) =
  calls w ++
  (if decide (conversationLabel (location (getPlayer w player)) <>
              conversationLabel location')
   then areaUpdates w (conversationLabel (location (getPlayer w player))) ++
        areaUpdates w (conversationLabel location')
   else []) ++
  announce (onPlayerMoved player) w.
Proof.
  unfold updatePlayerLocation. rewrite calls_notifyListeners.
  case_decide.
  - pose proof (leave_loop_calls player w w (_conversationAreas (this w))
                  (sameShape_refl w)) as [Hsh1 Hc1].
    cbv zeta in Hsh1, Hc1.
    set (s1 := JsArray.forEach (_conversationAreas (this w))
                 (updatePlayerLocation_leave player) w) in *.
    pose proof (enter_loop_calls player location' w s1 (_conversationAreas (this s1))
                  Hsh1) as [Hsh2 Hc2].
    cbv zeta in Hsh2, Hc2.
    set (s2 := JsArray.forEach (_conversationAreas (this s1))
                 (updatePlayerLocation_enter player location') s1) in *.
    change (calls (updateLocation player location' s2)) with (calls s2).
    change (announce (onPlayerMoved player) (updateLocation player location' s2))
      with (announce (onPlayerMoved player) s2).
    rewrite (announce_sameShape w s2 _ Hsh2).
    rewrite Hc2, Hc1. unfold areaUpdates.
    destruct Hsh1 as (-> & _). by rewrite <- !app_assoc.
  - reflexivity.
Qed.

(** ** Leaving a conversation area *)

Lemma getArea_notifyListeners c w a : getArea (notifyListeners c w) a = getArea w a.
Proof. unfold getArea. by rewrite store_notifyListeners. Qed.

Lemma getPlayer_notifyListeners c w p : getPlayer (notifyListeners c w) p = getPlayer w p.
Proof. unfold getPlayer. by rewrite store_notifyListeners. Qed.

Lemma getSession_notifyListeners c w s :
  getSession (notifyListeners c w) s = getSession w s.
Proof. unfold getSession. by rewrite store_notifyListeners. Qed.

Lemma afterLeaving_label l id area : label (afterLeaving l id area) = label area.
Proof. unfold afterLeaving. by case_decide. Qed.

Lemma afterLeaving_absent l id area :
  Some (label area) = l -> id ∉ occupantsByID area ->
  occupantsByID (afterLeaving l id area) = removelast (occupantsByID area).
Proof.
  intros Hl Hid. unfold afterLeaving. rewrite decide_True by exact Hl. simpl.
  by rewrite indexOf_absent, splice_minus_one.
Qed.

(** The areas after the loop of [destroySession]: each one visited exactly
    once has been left. *)
Lemma destroySession_loop_areas (session : SessionRef) (s0 : World) :
  NoDup (_conversationAreas (this s0)) ->
  let who := getPlayer s0 (session_player (getSession s0 session)) in
  let s := JsArray.forEach (_conversationAreas (this s0))
             (destroySession_each session) s0 in
  forall r,
    getArea s r =
    if decide (r ∈ _conversationAreas (this s0))
    then afterLeaving (conversationLabel (location who)) (player_id who) (getArea s0 r)
    else getArea s0 r.
Proof.
  intros Hnd who. cbv zeta.
  set (l := conversationLabel (location who)). set (id := player_id who).
  pose (I := fun (pre : list AreaRef) (s : World) =>
          playerObjs (store s) = playerObjs (store s0) /\
          sessionObjs (store s) = sessionObjs (store s0) /\
          forall r, getArea s r =
                    if decide (r ∈ pre) then afterLeaving l id (getArea s0 r)
                    else getArea s0 r).
  cut (I (_conversationAreas (this s0))
         (JsArray.forEach (_conversationAreas (this s0)) (destroySession_each session) s0)).
  { intros (_ & _ & H). exact H. }
  apply forEach_invariant.
  - split; [reflexivity|]. split; [reflexivity|]. intros r.
    rewrite decide_False by apply not_elem_of_nil. reflexivity.
  - intros pre x post j s Hl _ (Hp & Hs & Ha).
    assert (Hx : x ∉ pre).
    { rewrite Hl in Hnd. apply NoDup_app in Hnd as (_ & Hd & _).
      intros Hin. apply (Hd x Hin). left. }
    unfold destroySession_each.
    assert (Hwho : getPlayer s (session_player (getSession s session)) = who).
    { unfold getPlayer, getSession. by rewrite Hp, Hs. }
    rewrite Hwho. fold l id.
    assert (Hax : getArea s x = getArea s0 x).
    { rewrite Ha. by rewrite decide_False. }
    assert (Hstep : forall r,
               (if decide (r ∈ pre ++ [x])
                then afterLeaving l id (getArea s0 r) else getArea s0 r) =
               (if decide (x = r) then afterLeaving l id (getArea s0 x)
                else getArea s r)).
    { intros r. rewrite Ha.
      destruct (decide (x = r)) as [<-|Hne].
      - rewrite decide_True; [reflexivity|]. apply elem_of_app. right. left.
      - destruct (decide (r ∈ pre)) as [Hin|Hin].
        + rewrite decide_True; [reflexivity|]. apply elem_of_app. by left.
        + rewrite decide_False; [reflexivity|].
          intros [H|H]%elem_of_app; [done|].
          apply list_elem_of_singleton in H. congruence. }
    assert (Hset : forall s',
               store s' = store (setArea x (afterLeaving l id (getArea s0 x)) s) ->
               I (pre ++ [x]) s').
    { intros s' Hst. unfold I, getArea. rewrite Hst. simpl.
      split; [exact Hp|]. split; [exact Hs|].
      intros r. fold (getArea s0 r). rewrite Hstep.
      change (<[x:=?v]> (areaObjs (store s)) !!! r) with (getArea (setArea x v s) r).
      by rewrite getArea_setArea. }
    case_decide as Hlab.
    + assert (Hleft : with_occupantsByID
                        (JsArray.splice (occupantsByID (getArea s x))
                           (JsArray.indexOf (occupantsByID (getArea s x)) id) 1)
                        (getArea s x) = afterLeaving l id (getArea s0 x)).
      { rewrite Hax. unfold afterLeaving. rewrite decide_True; [done|].
        by rewrite <- Hax. }
      rewrite Hleft.
      case_decide; apply Hset; by rewrite !store_notifyListeners.
    + split; [exact Hp|]. split; [exact Hs|].
      intros r. rewrite Hstep. case_decide; [|reflexivity].
      subst r. rewrite Hax. unfold afterLeaving. rewrite decide_False; [done|].
      by rewrite <- Hax.
Qed.

Lemma destroySession_areas (session : SessionRef) (w : World) :
  NoDup (_conversationAreas (this w)) ->
  let who := getPlayer w (session_player (getSession w session)) in
  forall r,
    getArea (destroySession session w) r =
    if decide (r ∈ _conversationAreas (this w))
    then afterLeaving (conversationLabel (location who)) (player_id who) (getArea w r)
    else getArea w r.
Proof.
  intros Hnd who r. unfold destroySession. rewrite getArea_notifyListeners.
  match goal with
  | |- getArea (JsArray.forEach _ _ ?s0) r = _ =>
      pose proof (destroySession_loop_areas session s0 Hnd) as H
  end.
  cbv zeta in H. exact (H r).
Qed.

Lemma getArea_setActiveConversationArea p o w a :
  getArea (setActiveConversationArea p o w) a = getArea w a.
Proof. reflexivity. Qed.

Lemma getArea_updateLocation p l w a : getArea (updateLocation p l w) a = getArea w a.
Proof. reflexivity. Qed.

(** The areas after the first loop of [updatePlayerLocation]. *)
Lemma leave_loop_areas (player : PlayerRef) (s0 : World) :
  NoDup (_conversationAreas (this s0)) ->
  let who := getPlayer s0 player in
  let s := JsArray.forEach (_conversationAreas (this s0))
             (updatePlayerLocation_leave player) s0 in
  forall r,
    getArea s r =
    if decide (r ∈ _conversationAreas (this s0))
    then afterLeaving (conversationLabel (location who)) (player_id who) (getArea s0 r)
    else getArea s0 r.
Proof.
  intros Hnd who. cbv zeta.
  set (l := conversationLabel (location who)). set (id := player_id who).
  pose (I := fun (pre : list AreaRef) (s : World) =>
          sameShape s0 s /\
          forall r, getArea s r =
                    if decide (r ∈ pre) then afterLeaving l id (getArea s0 r)
                    else getArea s0 r).
  cut (I (_conversationAreas (this s0))
         (JsArray.forEach (_conversationAreas (this s0))
            (updatePlayerLocation_leave player) s0)).
  { intros (_ & H). exact H. }
  apply forEach_invariant.
  - split; [apply sameShape_refl|]. intros r.
    rewrite decide_False by apply not_elem_of_nil. reflexivity.
  - intros pre x post j s Hl _ (Hsh & Ha).
    assert (Hx : x ∉ pre).
    { rewrite Hl in Hnd. apply NoDup_app in Hnd as (_ & Hd & _).
      intros Hin. apply (Hd x Hin). left. }
    unfold updatePlayerLocation_leave.
    pose proof Hsh as (_ & _ & Hid & Hloc).
    rewrite Hid, Hloc. fold who l id.
    assert (Hax : getArea s x = getArea s0 x).
    { rewrite Ha. by rewrite decide_False. }
    assert (Hstep : forall r,
               (if decide (r ∈ pre ++ [x])
                then afterLeaving l id (getArea s0 r) else getArea s0 r) =
               (if decide (x = r) then afterLeaving l id (getArea s0 x)
                else getArea s r)).
    { intros r. rewrite Ha.
      destruct (decide (x = r)) as [<-|Hne].
      - rewrite decide_True; [reflexivity|]. apply elem_of_app. right. left.
      - destruct (decide (r ∈ pre)) as [Hin|Hin].
        + rewrite decide_True; [reflexivity|]. apply elem_of_app. by left.
        + rewrite decide_False; [reflexivity|].
          intros [H|H]%elem_of_app; [done|].
          apply list_elem_of_singleton in H. congruence. }
    case_decide as Hlab.
    + assert (Hleft : with_occupantsByID
                        (JsArray.splice (occupantsByID (getArea s x))
                           (JsArray.indexOf (occupantsByID (getArea s x)) id) 1)
                        (getArea s x) = afterLeaving l id (getArea s0 x)).
      { rewrite Hax. unfold afterLeaving. rewrite decide_True; [done|].
        by rewrite <- Hax. }
      split.
      * by apply sameShape_notifyListeners, sameShape_setActiveConversationArea,
          sameShape_setOccupants.
      * intros r. rewrite getArea_notifyListeners, getArea_setActiveConversationArea.
        rewrite Hleft, getArea_setArea. by rewrite Hstep.
    + split; [exact Hsh|].
      intros r. rewrite Hstep. case_decide; [|reflexivity].
      subst r. rewrite Hax. unfold afterLeaving. rewrite decide_False; [done|].
      by rewrite <- Hax.
Qed.

(** The second loop leaves alone every area whose label is not the new
    one. *)
Lemma enter_loop_other_area (player : PlayerRef) (location' : UserLocation)
    (s1 : World) (areas : list AreaRef) (a : AreaRef) :
  Some (label (getArea s1 a)) <> conversationLabel location' ->
  getArea (JsArray.forEach areas (updatePlayerLocation_enter player location') s1) a =
  getArea s1 a.
Proof.
  intros Hne.
  apply (forEach_preserves (fun s => getArea s a = getArea s1 a)); [reflexivity|].
  intros x j s Hs. unfold updatePlayerLocation_enter.
  case_decide as Hlab; [|exact Hs].
  rewrite getArea_notifyListeners, getArea_setActiveConversationArea, getArea_setArea.
  case_decide; [|exact Hs]. subst x. rewrite Hs in Hlab. contradiction.
Qed.

(** C8: when the participant's recorded label is that of an area of the
    town (visited once by the loop) whose occupant list does not hold the
    participant's id, [destroySession], and [updatePlayerLocation] with a
    changed label, drop the last entry of that occupant list. *)
Theorem absent_occupant_drops_last_entry (w : World) (a : AreaRef)
    (session : SessionRef) (player : PlayerRef) (location' : UserLocation) :
  NoDup (_conversationAreas (this w)) ->
  a ∈ _conversationAreas (this w) ->
  Some (label (getArea w a)) = conversationLabel (location (getPlayer w player)) ->
  player_id (getPlayer w player) ∉ occupantsByID (getArea w a) ->
  (session_player (getSession w session) = player ->
   occupantsByID (getArea (destroySession session w) a) =
   removelast (occupantsByID (getArea w a))) /\
  (conversationLabel (location (getPlayer w player)) <> conversationLabel location' ->
   occupantsByID (getArea (updatePlayerLocation player location' w) a) =
   removelast (occupantsByID (getArea w a))).
Proof.
  intros Hnd Ha Hlab Hid. split.
  - intros Hs. rewrite (destroySession_areas session w Hnd a).
    rewrite decide_True by exact Ha. rewrite Hs.
    by apply afterLeaving_absent.
  - intros Hne. unfold updatePlayerLocation.
    rewrite getArea_notifyListeners, getArea_updateLocation.
    rewrite decide_True by exact Hne.
    pose proof (leave_loop_areas player w Hnd) as Hleave. cbv zeta in Hleave.
    set (s1 := JsArray.forEach (_conversationAreas (this w))
                 (updatePlayerLocation_leave player) w) in *.
    rewrite enter_loop_other_area.
    + rewrite Hleave, decide_True by exact Ha. by apply afterLeaving_absent.
    + rewrite Hleave, decide_True by exact Ha. rewrite afterLeaving_label.
      congruence.
Qed.

Lemma absent_occupant_drops_last_entry_witness :
  NoDup (_conversationAreas (this fixtureTownStale)) /\
  3%nat ∈ _conversationAreas (this fixtureTownStale) /\
  Some (label (getArea fixtureTownStale 3%nat)) =
    conversationLabel (location (getPlayer fixtureTownStale 1%nat)) /\
  (player_id (getPlayer fixtureTownStale 1%nat) ∉
     occupantsByID (getArea fixtureTownStale 3%nat)) /\
  occupantsByID (getArea fixtureTownStale 3%nat) = ["p2"; "p9"] /\
  occupantsByID (getArea (destroySession 0%nat fixtureTownStale) 3%nat) = ["p2"] /\
  occupantsByID
    (getArea (updatePlayerLocation 1%nat fixtureLocationOutside fixtureTownStale) 3%nat) =
    ["p2"].
Proof.
  assert (H1 : NoDup (_conversationAreas (this fixtureTownStale)))
    by apply NoDup_singleton.
  assert (H2 : 3%nat ∈ _conversationAreas (this fixtureTownStale)) by constructor.
  assert (H3 : Some (label (getArea fixtureTownStale 3%nat)) =
               conversationLabel (location (getPlayer fixtureTownStale 1%nat)))
    by reflexivity.
  assert (H4 : player_id (getPlayer fixtureTownStale 1%nat) ∉
               occupantsByID (getArea fixtureTownStale 3%nat)).
  { intros H. repeat (apply elem_of_cons in H as [H|H]; [discriminate H|]).
    by apply elem_of_nil in H. }
  pose proof (absent_occupant_drops_last_entry fixtureTownStale 3%nat 0%nat 1%nat
                fixtureLocationOutside H1 H2 H3 H4) as [Hd Hu].
  split; [exact H1|]. split; [exact H2|]. split; [exact H3|]. split; [exact H4|].
  split; [reflexivity|]. split.
  - exact (Hd eq_refl).
  - apply Hu. discriminate.
Defined.

(** C2 on [fixtureTownLast], where the leaving participant is the only
    occupant of the area: the id is taken out of the occupant list and the
    listener is told of the update, of the destruction and of the
    disconnection, but the emptied area is still in the town's list; no call
    of [destroySession] ever changes that list. *)
Theorem destroySession_keeps_the_emptied_area :
  (let w' := destroySession 0%nat fixtureTownLast in
   _conversationAreas (this fixtureTownLast) = [3%nat] /\
   occupantsByID (getArea fixtureTownLast 3%nat) = ["p1"] /\
   occupantsByID (getArea w' 3%nat) = [] /\
   calls w' = [(11%nat, onConversationAreaUpdated 3%nat);
               (11%nat, onConversationAreaDestroyed 3%nat);
               (11%nat, onPlayerDisconnected 1%nat)] /\
   _players (this w') = [] /\
   _sessions (this w') = [] /\
   _conversationAreas (this w') = [3%nat]) /\
  (forall session w,
     _conversationAreas (this (destroySession session w)) =
     _conversationAreas (this w)).
Proof.
  split.
  - repeat split; reflexivity.
  - intros. apply destroySession_keeps_listeners_and_areas.
Qed.

(** ** Populating a new conversation area *)

Lemma isPlayerInConversationArea_location (p q : Player) (coords : list number) :
  location p = location q ->
  isPlayerInConversationArea p coords = isPlayerInConversationArea q coords.
Proof. intros H. unfold isPlayerInConversationArea. by rewrite H. Qed.

(** The loop of [addConversationArea]: the ids of the participants inside
    are pushed, in list order, behind whatever the candidate's occupant list
    held, and each of them gets the candidate as active area. *)
Lemma addConversationArea_loop (a : AreaRef) (coords : list number) (w : World) :
  let s := JsArray.forEach (_players (this w)) (addConversationArea_each a coords) w in
  sameShape w s /\
  occupantsByID (getArea s a) =
    occupantsByID (getArea w a) ++ insideIds w coords (_players (this w)) /\
  (forall p, p ∈ _players (this w) ->
             isPlayerInConversationArea (getPlayer w p) coords = true ->
             activeConversationArea (getPlayer s p) = Some a).
Proof.
  cbv zeta.
  apply (forEach_invariant
           (fun pre s =>
              sameShape w s /\
              occupantsByID (getArea s a) =
                occupantsByID (getArea w a) ++ insideIds w coords pre /\
              (forall p, p ∈ pre ->
                         isPlayerInConversationArea (getPlayer w p) coords = true ->
                         activeConversationArea (getPlayer s p) = Some a))).
  - split; [apply sameShape_refl|]. split.
    + unfold insideIds. simpl. by rewrite app_nil_r.
    + intros p Hp. by apply elem_of_nil in Hp.
  - intros pre x post j s _ _ (Hsh & Hocc & Hact).
    pose proof Hsh as (_ & _ & Hid & Hloc).
    unfold addConversationArea_each.
    rewrite (isPlayerInConversationArea_location _ (getPlayer w x) coords (Hloc x)).
    unfold insideIds. rewrite filter_app, map_app, filter_cons, filter_nil.
    fold (insideIds w coords pre).
    destruct (isPlayerInConversationArea (getPlayer w x) coords) eqn:Ein.
    + rewrite decide_True by reflexivity. simpl.
      split; [by apply sameShape_setActiveConversationArea, sameShape_setOccupants|].
      split.
      * rewrite getArea_setActiveConversationArea, getArea_setArea.
        rewrite decide_True by reflexivity. simpl. unfold JsArray.push.
        by rewrite Hocc, Hid, app_assoc.
      * intros p Hp Hin. unfold setActiveConversationArea.
        rewrite getPlayer_setPlayer. case_decide; [reflexivity|].
        apply Hact; [|exact Hin].
        apply elem_of_app in Hp as [Hp|Hp]; [exact Hp|].
        apply list_elem_of_singleton in Hp. congruence.
    + rewrite decide_False by discriminate. simpl. rewrite app_nil_r.
      split; [exact Hsh|]. split; [exact Hocc|].
      intros p Hp Hin. apply elem_of_app in Hp as [Hp|Hp]; [by apply Hact|].
      apply list_elem_of_singleton in Hp. subst p. congruence.
Qed.

(** What an accepted [addConversationArea] leaves behind. *)
Lemma addConversationArea_accepted (a : AreaRef) (w w' : World) :
  addConversationArea a w = (true, w') ->
  let coords := getConversationAreaCoordinates (boundingBox (getArea w a)) in
  occupantsByID (getArea w' a) =
    occupantsByID (getArea w a) ++ insideIds w coords (_players (this w)) /\
  (forall p, p ∈ _players (this w) ->
             isPlayerInConversationArea (getPlayer w p) coords = true ->
             activeConversationArea (getPlayer w' p) = Some a) /\
  _conversationAreas (this w') = _conversationAreas (this w) ++ [a] /\
  calls w' = calls w ++ announce (onConversationAreaUpdated a) w.
Proof.
  unfold addConversationArea.
  case_decide; [discriminate|].
  destruct (labelExistsLoop w _ _); [discriminate|].
  destruct (conversationOverlaps _ w); [discriminate|].
  intros [= <-]. cbv zeta.
  pose proof (addConversationArea_loop a
                (getConversationAreaCoordinates (boundingBox (getArea w a))) w)
    as (Hsh & Hocc & Hact).
  cbv zeta in Hsh, Hocc, Hact.
  set (s := JsArray.forEach (_players (this w)) _ w) in *.
  rewrite notifyListeners_eq.
  split; [exact Hocc|]. split; [exact Hact|].
  destruct Hsh as (Ht & _). simpl. unfold announce, JsArray.push. rewrite Ht.
  split; [reflexivity|].
  assert (Hc : calls s = calls w); [|by rewrite Hc].
  subst s.
  apply (forEach_preserves (fun s => calls s = calls w)); [reflexivity|].
  intros x j s' Hs'. unfold addConversationArea_each.
  by destruct (isPlayerInConversationArea _ _).
Qed.

(** C3 on [fixtureTownGhost], where the candidate comes with the occupant
    ["ghost"] and one participant stands inside its region: the area is
    accepted, the participant's active area is the candidate, and the
    occupant list is the one passed in followed by the participant's id, not
    the ids of the participants inside alone. *)
Theorem addConversationArea_keeps_passed_occupants :
  let coords := getConversationAreaCoordinates
                  (boundingBox (getArea fixtureTownGhost 3%nat)) in
  let r := addConversationArea 3%nat fixtureTownGhost in
  occupantsByID (getArea fixtureTownGhost 3%nat) = ["ghost"] /\
  insideIds fixtureTownGhost coords (_players (this fixtureTownGhost)) = ["p1"] /\
  r.1 = true /\
  occupantsByID (getArea r.2 3%nat) = ["ghost"; "p1"] /\
  activeConversationArea (getPlayer r.2 1%nat) = Some 3%nat /\
  _conversationAreas (this r.2) = [3%nat].
Proof. repeat split; reflexivity. Qed.

(** ** The area list holds no area twice *)

Lemma updatePlayerLocation_this (player : PlayerRef) (location' : UserLocation)
    (w : World) :
  this (updatePlayerLocation player location' w) = this w.
Proof.
  unfold updatePlayerLocation. rewrite this_notifyListeners.
  change (this (updateLocation player location' ?s)) with (this s).
  case_decide; [|reflexivity].
  pose proof (leave_loop_calls player w w (_conversationAreas (this w))
                (sameShape_refl w)) as [Hsh1 _].
  cbv zeta in Hsh1.
  set (s1 := JsArray.forEach (_conversationAreas (this w))
               (updatePlayerLocation_leave player) w) in *.
  pose proof (enter_loop_calls player location' w s1 (_conversationAreas (this s1))
                Hsh1) as [Hsh2 _].
  cbv zeta in Hsh2. apply Hsh2.
Qed.

Lemma addConversationArea_refused (a : AreaRef) (w w' : World) :
  addConversationArea a w = (false, w') -> w' = w.
Proof.
  unfold addConversationArea.
  case_decide; [by intros [= <-]|].
  destruct (labelExistsLoop w _ _); [by intros [= <-]|].
  destruct (conversationOverlaps _ w); [by intros [= <-]|].
  discriminate.
Qed.

Lemma addConversationArea_accepted_new (a : AreaRef) (w w' : World) :
  addConversationArea a w = (true, w') -> a ∉ _conversationAreas (this w).
Proof.
  unfold addConversationArea.
  case_decide; [discriminate|].
  destruct (labelExistsLoop w _ _) eqn:El; [discriminate|].
  intros _ Hin.
  assert (labelExistsLoop w (_conversationAreas (this w)) (label (getArea w a)) = true).
  { apply labelExistsLoop_true. by exists a. }
  congruence.
Qed.

(** Every operation keeps the area list free of repeated references, so
    each loop over it visits an area once. *)
Lemma area_list_stays_duplicate_free (w : World) :
  NoDup (_conversationAreas (this w)) ->
  (forall videoClient token newPlayer,
     NoDup (_conversationAreas (this (addPlayer videoClient token newPlayer w).2))) /\
  (forall session, NoDup (_conversationAreas (this (destroySession session w)))) /\
  (forall player location',
     NoDup (_conversationAreas (this (updatePlayerLocation player location' w)))) /\
  (forall a, NoDup (_conversationAreas (this (addConversationArea a w).2))) /\
  (forall listener,
     NoDup (_conversationAreas (this (addTownListener listener w))) /\
     NoDup (_conversationAreas (this (removeTownListener listener w)))) /\
  NoDup (_conversationAreas (this (disconnectAllPlayers w))).
Proof.
  intros Hnd. split; [|split; [|split; [|split; [|split]]]].
  - intros. by rewrite addPlayer_this.
  - intros. by rewrite (proj2 (destroySession_keeps_listeners_and_areas session w)).
  - intros. by rewrite updatePlayerLocation_this.
  - intros a. destruct (addConversationArea a w) as [[|] w'] eqn:E; simpl.
    + pose proof (addConversationArea_accepted a w w' E) as (_ & _ & -> & _).
      apply NoDup_app. split; [exact Hnd|]. split; [|apply NoDup_singleton].
      intros x Hx Hx'. apply list_elem_of_singleton in Hx'. subst x.
      by apply (addConversationArea_accepted_new a w w' E).
    + by rewrite (addConversationArea_refused a w w' E).
  - intros. split; exact Hnd.
  - unfold disconnectAllPlayers. by rewrite this_notifyListeners.
Qed.

(** * Further properties *)

(** ** Geometry *)


Lemma num_lt_true (p q : number) : num_lt (Some p) (Some q) = true <-> (p < q)%Q.
Proof.
  simpl. rewrite negb_true_iff, <- not_true_iff_false, Qle_bool_iff.
  split; [apply Qnot_le_lt|apply Qlt_not_le].
Qed.

Lemma num_le_true (p q : number) : num_le (Some p) (Some q) = true <-> (p <= q)%Q.
Proof. simpl. apply Qle_bool_iff. Qed.

Lemma num_le_false (p q : number) : num_le (Some p) (Some q) = false <-> (q < p)%Q.
Proof.
  simpl. rewrite <- not_true_iff_false, Qle_bool_iff.
  split; [apply Qnot_le_lt|apply Qlt_not_le].
Qed.


Lemma inside_iff (p : Player) (b : BoundingBox) :
  isPlayerInConversationArea p (getConversationAreaCoordinates b) = true <->
  strictlyInside (loc_x (location p)) (loc_y (location p)) b.
Proof.
  unfold isPlayerInConversationArea, strictlyInside, num_gt.
  change (getConversationAreaCoordinates b !! 4%nat) with (Some (xMin b)).
  change (getConversationAreaCoordinates b !! 5%nat) with (Some (yMax b)).
  change (getConversationAreaCoordinates b !! 6%nat) with (Some (xMax b)).
  change (getConversationAreaCoordinates b !! 7%nat) with (Some (yMin b)).
  rewrite <- !num_lt_true.
  destruct (num_lt (Some (xMin b)) _), (num_lt _ (Some (xMax b))),
    (num_lt _ (Some (yMax b))), (num_lt (Some (yMin b)) _); simpl;
    intuition discriminate.
Qed.

Lemma overlap_iff (a b : BoundingBox) :
  overlapCondition (getConversationAreaCoordinates a)
    (getConversationAreaCoordinates b) = true <->
  (xMin a < xMax b)%Q /\ (xMin b < xMax a)%Q /\
  (yMin b < yMax a)%Q /\ (yMin a < yMax b)%Q.
Proof.
  unfold overlapCondition, num_ge.
  change (getConversationAreaCoordinates a !! 0%nat) with (Some (xMin a)).
  change (getConversationAreaCoordinates a !! 1%nat) with (Some (yMin a)).
  change (getConversationAreaCoordinates a !! 2%nat) with (Some (xMax a)).
  change (getConversationAreaCoordinates a !! 3%nat) with (Some (yMax a)).
  change (getConversationAreaCoordinates b !! 0%nat) with (Some (xMin b)).
  change (getConversationAreaCoordinates b !! 1%nat) with (Some (yMin b)).
  change (getConversationAreaCoordinates b !! 2%nat) with (Some (xMax b)).
  change (getConversationAreaCoordinates b !! 3%nat) with (Some (yMax b)).
  rewrite negb_true_iff, !orb_false_iff, !num_le_false. tauto.
Qed.


(** X2: [isPlayerInConversationArea], given the coordinates of a box, says
    yes exactly when the participant's location is strictly between the
    box's x bounds and strictly between its y bounds. *)
Theorem inside_iff_strictly_between_bounds (p : Player) (b : BoundingBox) :
  isPlayerInConversationArea p (getConversationAreaCoordinates b) = true <->
  (xMin b < loc_x (location p))%Q /\ (loc_x (location p) < xMax b)%Q /\
  (yMin b < loc_y (location p))%Q /\ (loc_y (location p) < yMax b)%Q.
Proof. apply inside_iff. Qed.


Lemma inside_both_overlap (p : Player) (a b : BoundingBox) :
  isPlayerInConversationArea p (getConversationAreaCoordinates a) = true ->
  isPlayerInConversationArea p (getConversationAreaCoordinates b) = true ->
  overlapCondition (getConversationAreaCoordinates a)
    (getConversationAreaCoordinates b) = true.
Proof.
  rewrite !inside_iff, overlap_iff. unfold strictlyInside.
  intros (A1 & A2 & A3 & A4) (B1 & B2 & B3 & B4).
  repeat split; eapply Qlt_trans; eauto.
Qed.

(** X4: when some location is strictly inside two boxes, the overlap test
    between the two boxes is true. *)
Theorem common_point_forces_overlap (p : Player) (a b : BoundingBox) :
  isPlayerInConversationArea p (getConversationAreaCoordinates a) = true ->
  isPlayerInConversationArea p (getConversationAreaCoordinates b) = true ->
  overlapCondition (getConversationAreaCoordinates a)
    (getConversationAreaCoordinates b) = true.
Proof. apply inside_both_overlap. Qed.

Lemma common_point_forces_overlap_witness :
  isPlayerInConversationArea (playerAt 4%Q 5%Q)
    (getConversationAreaCoordinates fixtureBoxWest) = true /\
  isPlayerInConversationArea (playerAt 4%Q 5%Q)
    (getConversationAreaCoordinates fixtureBoxMid) = true /\
  overlapCondition (getConversationAreaCoordinates fixtureBoxWest)
    (getConversationAreaCoordinates fixtureBoxMid) = true.
Proof.
  split; [reflexivity|]. split; [reflexivity|].
  exact (common_point_forces_overlap (playerAt 4%Q 5%Q) fixtureBoxWest fixtureBoxMid
           eq_refl eq_refl).
Defined.





(** ** What the operations keep *)

Lemma sameAreaData_refl w : sameAreaData w w.
Proof. intros a. reflexivity. Qed.

Lemma sameAreaData_store w s s' :
  areaObjs (store s') = areaObjs (store s) -> sameAreaData w s -> sameAreaData w s'.
Proof. intros H Hs a. unfold getArea. rewrite H. apply Hs. Qed.

Lemma sameAreaData_setOccupants w s a v :
  sameAreaData w s -> sameAreaData w (setArea a (with_occupantsByID v (getArea s a)) s).
Proof.
  intros Hs r. rewrite getArea_setArea. case_decide; [subst; apply Hs|apply Hs].
Qed.

Lemma sameAreaData_notifyListeners w s c :
  sameAreaData w s -> sameAreaData w (notifyListeners c s).
Proof. apply sameAreaData_store. by rewrite store_notifyListeners. Qed.

Lemma sameAreaData_setActiveConversationArea w s p o :
  sameAreaData w s -> sameAreaData w (setActiveConversationArea p o s).
Proof. by apply sameAreaData_store. Qed.

Lemma destroySession_sameAreaData session w :
  sameAreaData w (destroySession session w).
Proof.
  unfold destroySession. apply sameAreaData_notifyListeners.
  apply (forEach_preserves (sameAreaData w)).
  - by apply (sameAreaData_store w w); [|apply sameAreaData_refl].
  - intros x j s Hs. unfold destroySession_each.
    case_decide; [|exact Hs]. case_decide.
    + by apply sameAreaData_notifyListeners, sameAreaData_notifyListeners,
        sameAreaData_setOccupants.
    + by apply sameAreaData_notifyListeners, sameAreaData_setOccupants.
Qed.

Lemma sameAreaData_updateLocation w s p l :
  sameAreaData w s -> sameAreaData w (updateLocation p l s).
Proof. by apply sameAreaData_store. Qed.

Lemma updatePlayerLocation_sameAreaData player location' w :
  sameAreaData w (updatePlayerLocation player location' w).
Proof.
  unfold updatePlayerLocation.
  apply sameAreaData_notifyListeners, sameAreaData_updateLocation.
  case_decide; [|apply sameAreaData_refl].
  apply (forEach_preserves (sameAreaData w)).
  - apply (forEach_preserves (sameAreaData w)); [apply sameAreaData_refl|].
    intros x j s Hs. unfold updatePlayerLocation_leave. case_decide; [|exact Hs].
    by apply sameAreaData_notifyListeners, sameAreaData_setActiveConversationArea,
      sameAreaData_setOccupants.
  - intros x j s Hs. unfold updatePlayerLocation_enter. case_decide; [|exact Hs].
    by apply sameAreaData_notifyListeners, sameAreaData_setActiveConversationArea,
      sameAreaData_setOccupants.
Qed.

Lemma sameAreaData_set_conversationAreas w s v :
  sameAreaData w s -> sameAreaData w (set_conversationAreas v s).
Proof. by apply sameAreaData_store. Qed.

Lemma addConversationArea_sameAreaData a w :
  sameAreaData w (addConversationArea a w).2.
Proof.
  unfold addConversationArea.
  case_decide; [apply sameAreaData_refl|].
  destruct (labelExistsLoop w _ _); [apply sameAreaData_refl|].
  destruct (conversationOverlaps _ w); [apply sameAreaData_refl|].
  simpl.
  apply sameAreaData_set_conversationAreas, sameAreaData_notifyListeners.
  apply (forEach_preserves (sameAreaData w)); [apply sameAreaData_refl|].
  intros x j s Hs. unfold addConversationArea_each.
  destruct (isPlayerInConversationArea _ _); [|exact Hs].
  by apply sameAreaData_setActiveConversationArea, sameAreaData_setOccupants.
Qed.

Lemma addPlayer_sameAreaData videoClient token newPlayer w :
  sameAreaData w (addPlayer videoClient token newPlayer w).2.
Proof.
  apply (sameAreaData_store w w); [|apply sameAreaData_refl].
  unfold addPlayer, addPlayer_enter, addPlayer_resume, newPlayerSession. simpl.
  destruct (videoClient _ _); simpl; [|reflexivity].
  by rewrite store_notifyListeners.
Qed.

(** X7: no operation of the controller changes the label, the topic or the
    bounding box of any area object; only occupant lists change. *)
Theorem operations_keep_area_data (op : Operation) (w : World) (a : AreaRef) :
  label (getArea (run op w) a) = label (getArea w a) /\
  topic (getArea (run op w) a) = topic (getArea w a) /\
  boundingBox (getArea (run op w) a) = boundingBox (getArea w a).
Proof.
  assert (H : sameAreaData w (run op w)).
  { destruct op; simpl.
    - apply addPlayer_sameAreaData.
    - apply destroySession_sameAreaData.
    - apply updatePlayerLocation_sameAreaData.
    - apply addConversationArea_sameAreaData.
    - intros r. reflexivity.
    - intros r. reflexivity.
    - apply sameAreaData_notifyListeners, sameAreaData_refl. }
  specialize (H a). unfold areaData in H. by injection H as -> -> ->.
Qed.

Lemma pairwise_snoc {A : Type} (R : A -> A -> Prop) (l : list A) (a : A) :
  pairwise R (l ++ [a]) <-> pairwise R l /\ Forall (fun x => R x a) l.
Proof.
  induction l as [|x l IH]; simpl.
  - split; [intros _; split; [exact I|constructor]|intros _; split; [constructor|exact I]].
  - rewrite IH, Forall_app, Forall_singleton, Forall_cons. tauto.
Qed.

Lemma pairwise_impl {A : Type} (R R' : A -> A -> Prop) (l : list A) :
  (forall x y, R x y -> R' x y) -> pairwise R l -> pairwise R' l.
Proof.
  intros H. induction l as [|x l IH]; simpl; [done|].
  intros [Hx Hl]. split; [|by apply IH].
  eapply Forall_impl; [exact Hx|]. intros y. apply H.
Qed.

Lemma pairwise_lookup {A : Type} (R : A -> A -> Prop) (l : list A) (i j : nat) (x y : A) :
  pairwise R l -> (i < j)%nat -> l !! i = Some x -> l !! j = Some y -> R x y.
Proof.
  revert i j. induction l as [|z l IH]; intros i j Hp Hij Hi Hj; [done|].
  destruct Hp as [Hz Hl].
  destruct j as [|j]; [lia|]. simpl in Hj.
  destruct i as [|i]; simpl in Hi.
  - injection Hi as ->. rewrite Forall_forall in Hz. apply Hz.
    by apply list_elem_of_lookup_2 in Hj.
  - apply (IH i j); [exact Hl|lia|exact Hi|exact Hj].
Qed.

Lemma run_area_list (op : Operation) (w : World) :
  _conversationAreas (this (run op w)) = _conversationAreas (this w) \/
  exists a, op = OpAddConversationArea a /\
            addConversationArea a w = (true, run op w) /\
            _conversationAreas (this (run op w)) = _conversationAreas (this w) ++ [a].
Proof.
  destruct op; simpl.
  - left. by rewrite addPlayer_this.
  - left. apply destroySession_keeps_listeners_and_areas.
  - left. by rewrite updatePlayerLocation_this.
  - destruct (addConversationArea a w) as [[|] w'] eqn:E; simpl.
    + right. exists a. split; [reflexivity|]. split; [exact E|].
      by destruct (addConversationArea_accepted a w w' E) as (_ & _ & H & _).
    + left. by rewrite (addConversationArea_refused a w w' E).
  - by left.
  - by left.
  - left. unfold disconnectAllPlayers. by rewrite this_notifyListeners.
Qed.

Lemma run_sameAreaData (op : Operation) (w : World) : sameAreaData w (run op w).
Proof.
  destruct op; simpl.
  - apply addPlayer_sameAreaData.
  - apply destroySession_sameAreaData.
  - apply updatePlayerLocation_sameAreaData.
  - apply addConversationArea_sameAreaData.
  - intros r. reflexivity.
  - intros r. reflexivity.
  - apply sameAreaData_notifyListeners, sameAreaData_refl.
Qed.

Lemma sameAreaData_label w s a : sameAreaData w s -> label (getArea s a) = label (getArea w a).
Proof. intros H. specialize (H a). unfold areaData in H. congruence. Qed.

Lemma sameAreaData_boundingBox w s a :
  sameAreaData w s -> boundingBox (getArea s a) = boundingBox (getArea w a).
Proof. intros H. specialize (H a). unfold areaData in H. congruence. Qed.

(** What an accepted call has checked. *)
Lemma addConversationArea_accepted_checks (a : AreaRef) (w w' : World) :
  addConversationArea a w = (true, w') ->
  topic (getArea w a) <> "" /\
  (forall r, r ∈ _conversationAreas (this w) ->
             label (getArea w r) <> label (getArea w a)) /\
  (forall r, r ∈ _conversationAreas (this w) -> apart w a r).
Proof.
  unfold addConversationArea.
  case_decide as Ht; [discriminate|].
  destruct (labelExistsLoop w _ _) eqn:El; [discriminate|].
  destruct (conversationOverlaps _ w) eqn:Eo; [discriminate|].
  intros _. split; [exact Ht|]. split.
  - intros r Hr Hl.
    assert (labelExistsLoop w (_conversationAreas (this w)) (label (getArea w a)) = true)
      by (apply labelExistsLoop_true; by exists r).
    congruence.
  - intros r Hr. unfold apart. apply not_true_iff_false. intros Ho.
    assert (conversationOverlaps
              (getConversationAreaCoordinates (boundingBox (getArea w a))) w = true)
      by (apply conversationOverlapsLoop_true; by exists r).
    congruence.
Qed.

(** X8: [addConversationArea] returns true exactly when the candidate's
    topic is not empty, no area of the town carries the candidate's label,
    and the loop condition of [conversationOverlaps] is false against the
    box of every area of the town. *)
Theorem addConversationArea_accepts_iff (a : AreaRef) (w : World) :
  (addConversationArea a w).1 = true <->
  topic (getArea w a) <> "" /\
  (forall r, r ∈ _conversationAreas (this w) ->
             label (getArea w r) <> label (getArea w a)) /\
  (forall r, r ∈ _conversationAreas (this w) ->
             overlapCondition
               (getConversationAreaCoordinates (boundingBox (getArea w a)))
               (getConversationAreaCoordinates (boundingBox (getArea w r))) = false).
Proof.
  split.
  - intros H. destruct (addConversationArea a w) as [b w'] eqn:E. simpl in H. subst b.
    exact (addConversationArea_accepted_checks a w w' E).
  - intros (Ht & Hl & Ho).
    destruct (addConversationArea a w) as [[|] w'] eqn:E; [reflexivity|]. exfalso.
    revert E. unfold addConversationArea.
    case_decide; [contradiction|].
    destruct (labelExistsLoop w _ _) eqn:El.
    { apply labelExistsLoop_true in El as (r & Hr & Hlab). by destruct (Hl r Hr). }
    destruct (conversationOverlaps _ w) eqn:Eo; [|discriminate].
    apply conversationOverlapsLoop_true in Eo as (r & Hr & Hov).
    rewrite (Ho r Hr) in Hov. discriminate.
Qed.

(** X9: every operation keeps the labels of the town's areas pairwise
    distinct, and with them the area list free of repeated references. *)
Theorem operations_keep_labels_unique (op : Operation) (w : World) :
  labelsUnique w ->
  labelsUnique (run op w) /\ NoDup (_conversationAreas (this (run op w))).
Proof.
  intros Hu.
  assert (Hgoal : labelsUnique (run op w)).
  { unfold labelsUnique in *.
    pose proof (run_sameAreaData op w) as Hd.
    rewrite (map_ext _ (fun a => label (getArea w a)))
      by (intros r; by apply sameAreaData_label).
    destruct (run_area_list op w) as [->|(a & _ & E & ->)]; [exact Hu|].
    rewrite map_app. simpl. apply NoDup_app. split; [exact Hu|].
    split; [|apply NoDup_singleton].
    intros l Hl Hl'. apply list_elem_of_singleton in Hl'. subst l.
    apply list_elem_of_fmap in Hl as (r & Hlab & Hr).
    destruct (addConversationArea_accepted_checks a w _ E) as (_ & Hne & _).
    by destruct (Hne r Hr). }
  split; [exact Hgoal|].
  unfold labelsUnique in Hgoal. by apply NoDup_fmap_1 in Hgoal.
Qed.

Lemma operations_keep_labels_unique_witness :
  labelsUnique fixtureTownTwoAreas /\
  labelsUnique (run (OpAddConversationArea 7%nat) fixtureTownTwoAreas) /\
  _conversationAreas (this (run (OpAddConversationArea 7%nat) fixtureTownTwoAreas)) =
    [3%nat; 7%nat].
Proof.
  assert (H : labelsUnique fixtureTownTwoAreas).
  { unfold labelsUnique. simpl. apply NoDup_singleton. }
  split; [apply NoDup_singleton|].
  split; [|reflexivity].
  exact (proj1 (operations_keep_labels_unique (OpAddConversationArea 7%nat)
                  fixtureTownTwoAreas H)).
Defined.

(** X10: every operation keeps the areas of the town pairwise
    non-overlapping (the loop condition of [conversationOverlaps] is false
    between the boxes of any two areas of the list). *)
Theorem operations_keep_areas_apart (op : Operation) (w : World) :
  nonOverlapping w -> nonOverlapping (run op w).
Proof.
  intros Hn. unfold nonOverlapping in *.
  pose proof (run_sameAreaData op w) as Hd.
  assert (Hap : forall x y, apart w x y -> apart (run op w) x y).
  { intros x y. unfold apart. by rewrite !(sameAreaData_boundingBox w (run op w)). }
  destruct (run_area_list op w) as [->|(a & _ & E & ->)].
  - by apply (pairwise_impl (apart w)).
  - apply pairwise_snoc. split; [by apply (pairwise_impl (apart w))|].
    apply Forall_forall. intros r Hr. apply Hap.
    destruct (addConversationArea_accepted_checks a w _ E) as (_ & _ & Ho).
    specialize (Ho r Hr). unfold apart in *. by rewrite overlapCondition_sym.
Qed.

Lemma operations_keep_areas_apart_witness :
  nonOverlapping fixtureTownTwoAreas /\
  nonOverlapping (run (OpAddConversationArea 7%nat) fixtureTownTwoAreas) /\
  _conversationAreas (this (run (OpAddConversationArea 7%nat) fixtureTownTwoAreas)) =
    [3%nat; 7%nat].
Proof.
  assert (H : nonOverlapping fixtureTownTwoAreas).
  { unfold nonOverlapping. simpl. split; [constructor|exact I]. }
  split; [exact H|]. split; [|reflexivity].
  exact (operations_keep_areas_apart (OpAddConversationArea 7%nat)
           fixtureTownTwoAreas H).
Defined.

(** X11: in a town whose areas are pairwise non-overlapping, a location
    strictly inside the box of one area of the list is not inside the box of
    an area at another position of the list. *)
Theorem location_inside_at_most_one_area (w : World) (p : Player) (i j : nat)
    (a b : AreaRef) :
  nonOverlapping w ->
  i <> j ->
  _conversationAreas (this w) !! i = Some a ->
  _conversationAreas (this w) !! j = Some b ->
  isPlayerInConversationArea p
    (getConversationAreaCoordinates (boundingBox (getArea w a))) = true ->
  isPlayerInConversationArea p
    (getConversationAreaCoordinates (boundingBox (getArea w b))) = false.
Proof.
  intros Hn Hij Hi Hj Ha. apply not_true_iff_false. intros Hb.
  assert (Hab : apart w a b).
  { destruct (Nat.lt_total i j) as [Hlt|[Heq|Hlt]]; [|contradiction|].
    - exact (pairwise_lookup _ _ i j a b Hn Hlt Hi Hj).
    - pose proof (pairwise_lookup _ _ j i b a Hn Hlt Hj Hi) as H.
      unfold apart in *. by rewrite overlapCondition_sym. }
  unfold apart in Hab.
  rewrite (inside_both_overlap p _ _ Ha Hb) in Hab. discriminate.
Qed.

(** ** Listeners *)

(** X12: [disconnectAllPlayers] calls [onTownDestroyed] on every registered
    listener, once per registration and in registration order, and leaves
    the controller's fields and every object as they are. *)
Theorem disconnectAllPlayers_only_notifies (w : World) :
  this (disconnectAllPlayers w) = this w /\
  store (disconnectAllPlayers w) = store w /\
  calls (disconnectAllPlayers w) =
    calls w ++ map (fun listener => (listener, onTownDestroyed)) (_listeners (this w)).
Proof. unfold disconnectAllPlayers. by rewrite notifyListeners_eq. Qed.

Lemma removeTownListener_unknown (listener : ListenerRef) (w : World) :
  listener ∉ _listeners (this w) -> removeTownListener listener w = w.
Proof.
  intros H. unfold removeTownListener, set_listeners.
  assert (Hf : filter (fun v => v <> listener) (_listeners (this w)) =
               _listeners (this w)).
  { induction (_listeners (this w)) as [|x l IH]; [reflexivity|].
    rewrite filter_cons. rewrite decide_True.
    - f_equal. apply IH. intros Hin. apply H. by right.
    - intros ->. apply H. left. }
  rewrite Hf. by destruct w as [[] ? ?].
Qed.

(** X13: unsubscribing a listener that is not registered changes nothing,
    and subscribing a listener that was not registered and unsubscribing it
    again gives back the town as it was. *)
Theorem removeTownListener_unknown_and_round_trip (listener : ListenerRef) (w : World) :
  listener ∉ _listeners (this w) ->
  removeTownListener listener w = w /\
  removeTownListener listener (addTownListener listener w) = w.
Proof.
  intros H. split; [by apply removeTownListener_unknown|].
  unfold removeTownListener, addTownListener, set_listeners, JsArray.push. simpl.
  rewrite filter_app, filter_cons, filter_nil.
  rewrite decide_False by (intros Hne; by apply Hne).
  rewrite app_nil_r.
  pose proof (removeTownListener_unknown listener w H) as Hw.
  unfold removeTownListener, set_listeners in Hw. exact Hw.
Qed.

Lemma removeTownListener_unknown_and_round_trip_witness :
  (12%nat ∉ _listeners (this fixtureTownStale)) /\
  removeTownListener 12%nat fixtureTownStale = fixtureTownStale /\
  removeTownListener 12%nat (addTownListener 12%nat fixtureTownStale) =
    fixtureTownStale.
Proof.
  assert (H : 12%nat ∉ _listeners (this fixtureTownStale)).
  { intros H. apply list_elem_of_singleton in H. discriminate H. }
  split; [exact H|].
  exact (removeTownListener_unknown_and_round_trip 12%nat fixtureTownStale H).
Defined.

Lemma callsOnlyRegistered_refl w : callsOnlyRegistered w w.
Proof. split; [reflexivity|]. exists []. by rewrite app_nil_r. Qed.

Lemma callsOnlyRegistered_quiet w s s' :
  _listeners (this s') = _listeners (this s) -> calls s' = calls s ->
  callsOnlyRegistered w s -> callsOnlyRegistered w s'.
Proof. intros Hl Hc [H1 H2]. split; [congruence|]. by rewrite Hc. Qed.

Lemma callsOnlyRegistered_notifyListeners w s c :
  callsOnlyRegistered w s -> callsOnlyRegistered w (notifyListeners c s).
Proof.
  intros [H1 (new & Hc & Hf)]. rewrite notifyListeners_eq. split; [exact H1|].
  exists (new ++ announce c s). simpl. split; [by rewrite Hc, app_assoc|].
  apply Forall_app. split; [exact Hf|].
  unfold announce. rewrite H1. apply Forall_forall. intros [l c'] Hin.
  apply list_elem_of_fmap in Hin as (l' & [= -> ->] & Hl'). exact Hl'.
Qed.

Lemma run_callsOnlyRegistered (op : Operation) (w : World) :
  (exists listener, op = OpAddTownListener listener \/ op = OpRemoveTownListener listener) \/
  callsOnlyRegistered w (run op w).
Proof.
  destruct op; simpl.
  - right. unfold addPlayer, addPlayer_enter, addPlayer_resume, newPlayerSession. simpl.
    destruct (videoClient _ _); simpl.
    + apply callsOnlyRegistered_notifyListeners.
      by apply (callsOnlyRegistered_quiet w w); [| |apply callsOnlyRegistered_refl].
    + by apply (callsOnlyRegistered_quiet w w); [| |apply callsOnlyRegistered_refl].
  - right. unfold destroySession. apply callsOnlyRegistered_notifyListeners.
    apply (forEach_preserves (callsOnlyRegistered w)).
    + by apply (callsOnlyRegistered_quiet w w); [| |apply callsOnlyRegistered_refl].
    + intros x j s Hs. unfold destroySession_each.
      case_decide; [|exact Hs]. case_decide.
      * apply callsOnlyRegistered_notifyListeners, callsOnlyRegistered_notifyListeners.
        by apply (callsOnlyRegistered_quiet w s).
      * apply callsOnlyRegistered_notifyListeners.
        by apply (callsOnlyRegistered_quiet w s).
  - right. unfold updatePlayerLocation. apply callsOnlyRegistered_notifyListeners.
    match goal with
    | |- callsOnlyRegistered w (updateLocation _ _ ?s) =>
        apply (callsOnlyRegistered_quiet w s); [reflexivity|reflexivity|]
    end.
    case_decide; [|apply callsOnlyRegistered_refl].
    apply (forEach_preserves (callsOnlyRegistered w)).
    + apply (forEach_preserves (callsOnlyRegistered w));
        [apply callsOnlyRegistered_refl|].
      intros x j s Hs. unfold updatePlayerLocation_leave. case_decide; [|exact Hs].
      apply callsOnlyRegistered_notifyListeners.
      by apply (callsOnlyRegistered_quiet w s).
    + intros x j s Hs. unfold updatePlayerLocation_enter. case_decide; [|exact Hs].
      apply callsOnlyRegistered_notifyListeners.
      by apply (callsOnlyRegistered_quiet w s).
  - right. unfold addConversationArea.
    case_decide; [apply callsOnlyRegistered_refl|].
    destruct (labelExistsLoop w _ _); [apply callsOnlyRegistered_refl|].
    destruct (conversationOverlaps _ w); [apply callsOnlyRegistered_refl|].
    simpl.
    match goal with
    | |- callsOnlyRegistered w (set_conversationAreas _ ?s) =>
        apply (callsOnlyRegistered_quiet w s); [reflexivity|reflexivity|]
    end.
    apply callsOnlyRegistered_notifyListeners.
    apply (forEach_preserves (callsOnlyRegistered w));
      [apply callsOnlyRegistered_refl|].
    intros x j s Hs. unfold addConversationArea_each.
    destruct (isPlayerInConversationArea _ _); [|exact Hs].
    by apply (callsOnlyRegistered_quiet w s).
  - left. exists listener. by left.
  - left. exists listener. by right.
  - right. apply callsOnlyRegistered_notifyListeners, callsOnlyRegistered_refl.
Qed.

Lemma run_appends_calls (op : Operation) (w : World) :
  exists new, calls (run op w) = calls w ++ new /\
              Forall (fun lc => lc.1 ∈ _listeners (this w)) new.
Proof.
  destruct (run_callsOnlyRegistered op w) as [(l & [->| ->])|[_ H]].
  - exists []. by rewrite app_nil_r.
  - exists []. by rewrite app_nil_r.
  - exact H.
Qed.


(** X15: once a listener has been unsubscribed, the next operation makes no
    call to it, however often it had been subscribed. *)
Theorem unsubscribed_listener_is_not_called (listener : ListenerRef)
    (op : Operation) (w : World) :
  exists new, calls (run op (removeTownListener listener w)) = calls w ++ new /\
              Forall (fun lc => lc.1 <> listener) new.
Proof.
  destruct (run_appends_calls op (removeTownListener listener w)) as (new & Hc & Hf).
  exists new. split; [exact Hc|].
  eapply Forall_impl; [exact Hf|]. intros [l c]. simpl.
  unfold removeTownListener. simpl. intros Hin.
  apply list_elem_of_filter in Hin as [Hne _]. exact Hne.
Qed.

(** ** Sessions *)

Lemma find_token_none (w : World) (token : string) (l : list SessionRef) :
  find (fun p => bool_decide (sessionToken (getSession w p) = token)) l = None <->
  forall s, s ∈ l -> sessionToken (getSession w s) <> token.
Proof.
  induction l as [|x l IH]; simpl.
  - split; [|done]. intros _ s Hs. by apply elem_of_nil in Hs.
  - case_bool_decide as Hx.
    + split; [discriminate|]. intros H. exfalso. apply (H x); [left|exact Hx].
    + rewrite IH. split.
      * intros H s Hs. apply elem_of_cons in Hs as [->|Hs]; [exact Hx|by apply H].
      * intros H s Hs. apply H. by right.
Qed.

Lemma find_token_first (w : World) (token : string) (l : list SessionRef) (s : SessionRef) :
  find (fun p => bool_decide (sessionToken (getSession w p) = token)) l = Some s ->
  exists i, l !! i = Some s /\ sessionToken (getSession w s) = token /\
            forall j s', (j < i)%nat -> l !! j = Some s' ->
                         sessionToken (getSession w s') <> token.
Proof.
  induction l as [|x l IH]; simpl; [discriminate|].
  case_bool_decide as Hx.
  - intros [= ->]. exists 0%nat. split; [reflexivity|]. split; [exact Hx|].
    intros j s' Hj. lia.
  - intros H. destruct (IH H) as (i & Hi & Ht & Hfirst).
    exists (S i). split; [exact Hi|]. split; [exact Ht|].
    intros [|j] s' Hj Hs'; simpl in Hs'.
    + by injection Hs' as <-.
    + apply (Hfirst j); [lia|exact Hs'].
Qed.

(** X16: [getSessionByToken] finds nothing exactly when no session of the
    town carries the token; when it finds a session, that session is the
    first of the session list carrying the token. *)
Theorem getSessionByToken_finds_first_match (token : string) (w : World) :
  (getSessionByToken token w = None <->
   forall s, s ∈ _sessions (this w) -> sessionToken (getSession w s) <> token) /\
  (forall s, getSessionByToken token w = Some s ->
     exists i, _sessions (this w) !! i = Some s /\
               sessionToken (getSession w s) = token /\
               forall j s', (j < i)%nat -> _sessions (this w) !! j = Some s' ->
                            sessionToken (getSession w s') <> token).
Proof.
  split; [apply find_token_none|]. intros s. apply find_token_first.
Qed.

Lemma find_token_last (w : World) (token : string) (l : list SessionRef) (f : SessionRef) :
  sessionToken (getSession w f) = token ->
  (forall s, s ∈ l -> sessionToken (getSession w s) = token -> s = f) ->
  find (fun p => bool_decide (sessionToken (getSession w p) = token)) (l ++ [f]) = Some f.
Proof.
  intros Hf. induction l as [|x l IH]; intros Hl; simpl.
  - by rewrite bool_decide_eq_true_2.
  - case_bool_decide as Hx.
    + f_equal. apply Hl; [left|exact Hx].
    + apply IH. intros s Hs. apply Hl. by right.
Qed.

(** The world [addPlayer] leaves, whatever provisioning answered. *)
Lemma addPlayer_world (videoClient : IVideoClient) (token : string)
    (newPlayer : PlayerRef) (w : World) :
  let f := fresh (dom (sessionObjs (store w))) in
  let r := addPlayer videoClient token newPlayer w in
  exists vt,
    sessionObjs (store r.2) = <[f := mkSession newPlayer token vt]> (sessionObjs (store w)) /\
    playerObjs (store r.2) = playerObjs (store w) /\
    areaObjs (store r.2) = areaObjs (store w) /\
    (r.1 = Resolved f \/ exists reason, r.1 = Rejected reason).
Proof.
  cbv zeta.
  destruct (videoClient (_coveyTownID (this w)) (player_id (getPlayer w newPlayer)))
    as [tok|reason] eqn:E.
  - rewrite (addPlayer_resolved _ _ _ _ _ E). simpl. exists (Some tok).
    rewrite store_notifyListeners. simpl. rewrite insert_insert_eq.
    repeat split. by left.
  - rewrite (addPlayer_rejected _ _ _ _ _ E). simpl. exists None.
    repeat split. right. by exists reason.
Qed.

(** X17: after [addPlayer] with a session token that no session of the town
    carried, whether provisioning succeeded or not, [getSessionByToken] with
    that token finds the new session, which holds the new participant; when
    the call resolves, it resolves with that session. *)
Theorem addPlayer_session_is_found_by_token (videoClient : IVideoClient)
    (token : string) (newPlayer : PlayerRef) (w : World) :
  (forall s, s ∈ _sessions (this w) -> sessionToken (getSession w s) <> token) ->
  let r := addPlayer videoClient token newPlayer w in
  exists s,
    getSessionByToken token r.2 = Some s /\
    session_player (getSession r.2 s) = newPlayer /\
    sessionToken (getSession r.2 s) = token /\
    (forall s', r.1 = Resolved s' -> s' = s).
Proof.
  intros Hfresh r.
  destruct (addPlayer_world videoClient token newPlayer w) as (vt & Hs & _ & _ & Hr).
  cbv zeta in Hs, Hr. fold r in Hs, Hr.
  set (f := fresh (dom (sessionObjs (store w)))) in *.
  assert (Hget : forall s, getSession r.2 s =
                           if decide (f = s) then mkSession newPlayer token vt
                           else getSession w s).
  { intros s. unfold getSession. rewrite Hs.
    case_decide; [subst; by rewrite lookup_total_insert_eq|
                  by rewrite lookup_total_insert_ne]. }
  exists f. split; [|split; [|split]].
  - unfold getSessionByToken. subst r. rewrite addPlayer_this. simpl.
    apply find_token_last.
    + rewrite Hget. by rewrite decide_True.
    + intros s Hin. rewrite Hget. case_decide; [done|].
      intros Ht. by destruct (Hfresh s Hin).
  - rewrite Hget. by rewrite decide_True.
  - rewrite Hget. by rewrite decide_True.
  - intros s' Hs'. destruct Hr as [Hr|[reason Hr]]; congruence.
Qed.

Lemma addPlayer_session_is_found_by_token_witness :
  (forall s, s ∈ _sessions (this fixtureTownGuest) ->
             sessionToken (getSession fixtureTownGuest s) <> "token") /\
  exists s,
    getSessionByToken "token"
      (addPlayer (fun _ _ => Rejected "no video") "token" 1%nat fixtureTownGuest).2 =
      Some s /\
    session_player
      (getSession (addPlayer (fun _ _ => Rejected "no video") "token" 1%nat
                     fixtureTownGuest).2 s) = 1%nat.
Proof.
  assert (H : forall s, s ∈ _sessions (this fixtureTownGuest) ->
                        sessionToken (getSession fixtureTownGuest s) <> "token").
  { intros s Hs. by apply elem_of_nil in Hs. }
  split; [exact H|].
  destruct (addPlayer_session_is_found_by_token (fun _ _ => Rejected "no video")
              "token" 1%nat fixtureTownGuest H) as (s & H1 & H2 & _).
  exists s. split; [exact H1|exact H2].
Defined.

(** What [destroySession] does to the lists and what it leaves alone: the
    participant and session objects. *)
Lemma destroySession_frame (session : SessionRef) (w : World) :
  let d := destroySession session w in
  playerObjs (store d) = playerObjs (store w) /\
  sessionObjs (store d) = sessionObjs (store w) /\
  _players (this d) =
    filter (fun p => player_id (getPlayer w p) <>
                     player_id (getPlayer w (session_player (getSession w session))))
      (_players (this w)) /\
  _sessions (this d) =
    filter (fun s => sessionToken (getSession w s) <> sessionToken (getSession w session))
      (_sessions (this w)).
Proof.
  cbv zeta. unfold destroySession.
  rewrite this_notifyListeners, store_notifyListeners.
  match goal with
  | |- context [JsArray.forEach _ _ ?s0] =>
      apply (forEach_preserves
               (fun s => playerObjs (store s) = playerObjs (store w) /\
                         sessionObjs (store s) = sessionObjs (store w) /\
                         _players (this s) = _players (this s0) /\
                         _sessions (this s) = _sessions (this s0)))
  end.
  - repeat split.
  - intros x j s Hs. unfold destroySession_each.
    case_decide; [|exact Hs]. case_decide.
    + rewrite !this_notifyListeners, !store_notifyListeners. exact Hs.
    + rewrite !this_notifyListeners, !store_notifyListeners. exact Hs.
Qed.

(** X18: after [destroySession], [getSessionByToken] with the token of the
    destroyed session finds nothing, and no participant of the town carries
    the id of the departed participant. *)
Theorem destroySession_forgets_token_and_id (session : SessionRef) (w : World) :
  let d := destroySession session w in
  getSessionByToken (sessionToken (getSession w session)) d = None /\
  Forall (fun p => player_id (getPlayer d p) <>
                   player_id (getPlayer w (session_player (getSession w session))))
    (_players (this d)).
Proof.
  cbv zeta. destruct (destroySession_frame session w) as (Hp & Hs & Hlp & Hls).
  cbv zeta in Hp, Hs, Hlp, Hls. split.
  - unfold getSessionByToken. apply find_token_none. intros s Hin.
    rewrite Hls in Hin. apply list_elem_of_filter in Hin as [Hne _].
    unfold getSession. rewrite Hs. exact Hne.
  - apply Forall_forall. intros p Hin.
    rewrite Hlp in Hin. apply list_elem_of_filter in Hin as [Hne _].
    unfold getPlayer at 1. rewrite Hp. exact Hne.
Qed.

Lemma filter_all {A : Type} (P : A -> Prop) `{forall x, Decision (P x)} (l : list A) :
  (forall x, x ∈ l -> P x) -> filter P l = l.
Proof.
  induction l as [|x l IH]; intros Hl; [reflexivity|].
  rewrite filter_cons, decide_True by (apply Hl; left).
  f_equal. apply IH. intros y Hy. apply Hl. by right.
Qed.

(** X19: when a participant whose id no participant of the town carries is
    admitted with a token no session of the town carries (the town's sessions
    being existing objects), destroying the session just created gives back
    the participant list and the session list as they were before the
    admission, whether provisioning succeeded or not. *)
Theorem join_then_leave_restores_lists (videoClient : IVideoClient) (token : string)
    (newPlayer : PlayerRef) (w : World) :
  (forall q, q ∈ _players (this w) ->
             player_id (getPlayer w q) <> player_id (getPlayer w newPlayer)) ->
  (forall s, s ∈ _sessions (this w) ->
             s ∈ dom (sessionObjs (store w)) /\
             sessionToken (getSession w s) <> token) ->
  let r := addPlayer videoClient token newPlayer w in
  exists s,
    getSessionByToken token r.2 = Some s /\
    _players (this (destroySession s r.2)) = _players (this w) /\
    _sessions (this (destroySession s r.2)) = _sessions (this w).
Proof.
  intros Hid Htok r.
  destruct (addPlayer_world videoClient token newPlayer w) as (vt & Hs & Hp & _ & _).
  cbv zeta in Hs, Hp. fold r in Hs, Hp.
  set (f := fresh (dom (sessionObjs (store w)))) in *.
  assert (Hget : forall s, getSession r.2 s =
                           if decide (f = s) then mkSession newPlayer token vt
                           else getSession w s).
  { intros s. unfold getSession. rewrite Hs.
    case_decide; [subst; by rewrite lookup_total_insert_eq|
                  by rewrite lookup_total_insert_ne]. }
  assert (Hgetp : forall q, getPlayer r.2 q = getPlayer w q).
  { intros q. unfold getPlayer. by rewrite Hp. }
  assert (Hold : forall s, s ∈ _sessions (this w) -> s <> f).
  { intros s Hin ->. destruct (Htok f Hin) as [Hdom _].
    by apply (is_fresh (dom (sessionObjs (store w)))). }
  exists f. split; [|split].
  - unfold getSessionByToken. subst r. rewrite addPlayer_this. simpl.
    apply find_token_last.
    + rewrite Hget. by rewrite decide_True.
    + intros s Hin. rewrite Hget. case_decide; [done|].
      intros Ht. by destruct (proj2 (Htok s Hin)).
  - destruct (destroySession_frame f r.2) as (_ & _ & -> & _).
    rewrite (Hget f), decide_True by reflexivity. simpl.
    subst r. rewrite addPlayer_this. simpl.
    rewrite filter_app, filter_cons, filter_nil.
    rewrite decide_False by (intros Hne; by apply Hne).
    rewrite app_nil_r. apply filter_all.
    intros q Hq. rewrite !Hgetp. by apply Hid.
  - destruct (destroySession_frame f r.2) as (_ & _ & _ & ->).
    subst r. rewrite addPlayer_this. simpl.
    rewrite filter_app, filter_cons, filter_nil.
    rewrite decide_False by (intros Hne; by apply Hne).
    rewrite app_nil_r. apply filter_all.
    intros s Hin. rewrite !Hget.
    rewrite (decide_True (P := f = f)) by reflexivity.
    rewrite (decide_False (P := f = s)) by (intros Heq; apply (Hold s Hin); by symmetry).
    simpl. apply (Htok s Hin).
Qed.

Lemma join_then_leave_restores_lists_witness :
  let w := fixtureTownNewcomer in
  let r := addPlayer (fun _ id => Resolved ("video-" +:+ id)) "token2" 2%nat w in
  (forall q, q ∈ _players (this w) ->
             player_id (getPlayer w q) <> player_id (getPlayer w 2%nat)) /\
  (forall s, s ∈ _sessions (this w) ->
             s ∈ dom (sessionObjs (store w)) /\
             sessionToken (getSession w s) <> "token2") /\
  _players (this w) = [1%nat] /\ _sessions (this w) = [0%nat] /\
  _players (this r.2) = [1%nat; 2%nat] /\
  exists s,
    getSessionByToken "token2" r.2 = Some s /\
    _players (this (destroySession s r.2)) = _players (this w) /\
    _sessions (this (destroySession s r.2)) = _sessions (this w).
Proof.
  cbv zeta.
  assert (H1 : forall q, q ∈ _players (this fixtureTownNewcomer) ->
                 player_id (getPlayer fixtureTownNewcomer q) <>
                 player_id (getPlayer fixtureTownNewcomer 2%nat)).
  { intros q Hq. apply list_elem_of_singleton in Hq. subst q. discriminate. }
  assert (H2 : forall s, s ∈ _sessions (this fixtureTownNewcomer) ->
                 s ∈ dom (sessionObjs (store fixtureTownNewcomer)) /\
                 sessionToken (getSession fixtureTownNewcomer s) <> "token2").
  { intros s Hs. apply list_elem_of_singleton in Hs. subst s.
    split; [|discriminate]. apply elem_of_dom. by exists (mkSession 1%nat "token" (Some "video")). }
  split; [exact H1|]. split; [exact H2|].
  split; [reflexivity|]. split; [reflexivity|]. split; [reflexivity|].
  exact (join_then_leave_restores_lists (fun _ id => Resolved ("video-" +:+ id))
           "token2" 2%nat fixtureTownNewcomer H1 H2).
Defined.

(** ** Leaving, in full *)

Lemma indexOfFrom_first (pre post : list string) (x : string) (i : Z) :
  x ∉ pre -> JsArray.indexOfFrom i (pre ++ x :: post) x = i + Z.of_nat (length pre).
Proof.
  revert i. induction pre as [|y pre IH]; intros i Hx; simpl.
  - rewrite decide_True by reflexivity. lia.
  - rewrite decide_False by (intros ->; apply Hx; left).
    rewrite IH by (intros Hin; apply Hx; by right). lia.
Qed.

Lemma splice_one_at (pre post : list string) (x : string) :
  JsArray.splice (pre ++ x :: post) (Z.of_nat (length pre)) 1 = pre ++ post.
Proof.
  unfold JsArray.splice. rewrite length_app. simpl.
  destruct (Z.ltb_spec (Z.of_nat (length pre)) 0) as [Hneg|_]; [lia|].
  rewrite Z.min_l by lia.
  replace (Z.min (Z.max 1 0) _) with 1 by lia.
  rewrite Nat2Z.id.
  replace (Z.to_nat (Z.of_nat (length pre) + 1)) with (length pre + 1)%nat by lia.
  rewrite take_app_length. rewrite drop_app_ge by lia.
  replace (length pre + 1 - length pre)%nat with 1%nat by lia. reflexivity.
Qed.

Lemma afterLeaving_present (l : option string) (id : string) (area : ServerConversationArea)
    (pre post : list string) :
  Some (label area) = l -> occupantsByID area = pre ++ id :: post -> id ∉ pre ->
  occupantsByID (afterLeaving l id area) = pre ++ post.
Proof.
  intros Hl Hocc Hpre. unfold afterLeaving. rewrite decide_True by exact Hl. simpl.
  rewrite Hocc. unfold JsArray.indexOf. rewrite indexOfFrom_first by exact Hpre.
  simpl. apply splice_one_at.
Qed.

(** X20: when the participant's recorded label is that of an area of the
    town (visited once by the loop) and the participant's id is in its
    occupant list, [destroySession], and [updatePlayerLocation] with a
    changed label, take the first occurrence of the id out of that list and
    keep the other entries in order. *)
Theorem present_occupant_is_taken_out (w : World) (a : AreaRef)
    (session : SessionRef) (player : PlayerRef) (location' : UserLocation)
    (pre post : list string) :
  NoDup (_conversationAreas (this w)) ->
  a ∈ _conversationAreas (this w) ->
  Some (label (getArea w a)) = conversationLabel (location (getPlayer w player)) ->
  occupantsByID (getArea w a) = pre ++ player_id (getPlayer w player) :: post ->
  player_id (getPlayer w player) ∉ pre ->
  (session_player (getSession w session) = player ->
   occupantsByID (getArea (destroySession session w) a) = pre ++ post) /\
  (conversationLabel (location (getPlayer w player)) <> conversationLabel location' ->
   occupantsByID (getArea (updatePlayerLocation player location' w) a) = pre ++ post).
Proof.
  intros Hnd Ha Hlab Hocc Hpre. split.
  - intros Hs. rewrite (destroySession_areas session w Hnd a).
    rewrite decide_True by exact Ha. rewrite Hs.
    by apply afterLeaving_present.
  - intros Hne. unfold updatePlayerLocation.
    rewrite getArea_notifyListeners, getArea_updateLocation.
    rewrite decide_True by exact Hne.
    pose proof (leave_loop_areas player w Hnd) as Hleave. cbv zeta in Hleave.
    set (s1 := JsArray.forEach (_conversationAreas (this w))
                 (updatePlayerLocation_leave player) w) in *.
    rewrite enter_loop_other_area.
    + rewrite Hleave, decide_True by exact Ha. by apply afterLeaving_present.
    + rewrite Hleave, decide_True by exact Ha. rewrite afterLeaving_label.
      congruence.
Qed.

Lemma present_occupant_is_taken_out_witness :
  let w := fixtureTownOf ["p2"; "p1"; "p9"; "p1"] in
  NoDup (_conversationAreas (this w)) /\
  3%nat ∈ _conversationAreas (this w) /\
  Some (label (getArea w 3%nat)) = conversationLabel (location (getPlayer w 1%nat)) /\
  occupantsByID (getArea w 3%nat) = ["p2"] ++ player_id (getPlayer w 1%nat) :: ["p9"; "p1"] /\
  (player_id (getPlayer w 1%nat) ∉ ["p2"]) /\
  occupantsByID (getArea (destroySession 0%nat w) 3%nat) = ["p2"; "p9"; "p1"] /\
  occupantsByID (getArea (updatePlayerLocation 1%nat fixtureLocationOutside w) 3%nat) =
    ["p2"; "p9"; "p1"].
Proof.
  cbv zeta. set (w := fixtureTownOf ["p2"; "p1"; "p9"; "p1"]).
  assert (H1 : NoDup (_conversationAreas (this w))) by apply NoDup_singleton.
  assert (H2 : 3%nat ∈ _conversationAreas (this w)) by constructor.
  assert (H3 : Some (label (getArea w 3%nat)) =
               conversationLabel (location (getPlayer w 1%nat))) by reflexivity.
  assert (H4 : occupantsByID (getArea w 3%nat) =
               ["p2"] ++ player_id (getPlayer w 1%nat) :: ["p9"; "p1"]) by reflexivity.
  assert (H5 : player_id (getPlayer w 1%nat) ∉ ["p2"]).
  { intros H. apply list_elem_of_singleton in H. discriminate H. }
  pose proof (present_occupant_is_taken_out w 3%nat 0%nat 1%nat fixtureLocationOutside
                ["p2"] ["p9"; "p1"] H1 H2 H3 H4 H5) as [Hd Hu].
  split; [exact H1|]. split; [exact H2|]. split; [exact H3|]. split; [exact H4|].
  split; [exact H5|]. split.
  - exact (Hd eq_refl).
  - apply Hu. discriminate.
Defined.

(** The calls made by the loop of [destroySession], each area of the list
    being visited once. *)
Lemma destroySession_loop_calls (session : SessionRef) (s0 : World) :
  NoDup (_conversationAreas (this s0)) ->
  let who := getPlayer s0 (session_player (getSession s0 session)) in
  let s := JsArray.forEach (_conversationAreas (this s0))
             (destroySession_each session) s0 in
  calls s = calls s0 ++
    flat_map (leaveRounds s0 (conversationLabel (location who)) (player_id who))
      (filter (fun a => Some (label (getArea s0 a)) = conversationLabel (location who))
         (_conversationAreas (this s0))).
Proof.
  intros Hnd who. cbv zeta.
  set (l := conversationLabel (location who)). set (id := player_id who).
  pose (I := fun (pre : list AreaRef) (s : World) =>
          playerObjs (store s) = playerObjs (store s0) /\
          sessionObjs (store s) = sessionObjs (store s0) /\
          _listeners (this s) = _listeners (this s0) /\
          (forall r, r ∉ pre -> getArea s r = getArea s0 r) /\
          calls s = calls s0 ++
            flat_map (leaveRounds s0 l id)
              (filter (fun a => Some (label (getArea s0 a)) = l) pre)).
  cut (I (_conversationAreas (this s0))
         (JsArray.forEach (_conversationAreas (this s0)) (destroySession_each session) s0)).
  { intros (_ & _ & _ & _ & H). exact H. }
  apply forEach_invariant.
  - repeat split. simpl. by rewrite app_nil_r.
  - intros pre x post j s Hl _ (Hp & Hs & Hli & Ha & Hc).
    assert (Hx : x ∉ pre).
    { rewrite Hl in Hnd. apply NoDup_app in Hnd as (_ & Hd & _).
      intros Hin. apply (Hd x Hin). left. }
    unfold I, destroySession_each.
    assert (Hwho : getPlayer s (session_player (getSession s session)) = who).
    { unfold getPlayer, getSession. by rewrite Hp, Hs. }
    rewrite Hwho. fold l id.
    rewrite (Ha x Hx).
    rewrite filter_app, flat_map_app, filter_cons, filter_nil.
    assert (Hother : forall s' v r,
               areaObjs (store s') = areaObjs (store (setArea x v s)) ->
               r ∉ pre ++ [x] -> getArea s' r = getArea s0 r).
    { intros s' v r Hst Hr. unfold getArea at 1. rewrite Hst.
      change (areaObjs (store (setArea x v s)) !!! r) with (getArea (setArea x v s) r).
      rewrite getArea_setArea. rewrite decide_False.
      - apply Ha. intros Hin. apply Hr. apply elem_of_app. by left.
      - intros ->. apply Hr. apply elem_of_app. right. left. }
    case_decide as Hlab.
    + assert (Hleft : with_occupantsByID
                        (JsArray.splice (occupantsByID (getArea s0 x))
                           (JsArray.indexOf (occupantsByID (getArea s0 x)) id) 1)
                        (getArea s0 x) = afterLeaving l id (getArea s0 x)).
      { unfold afterLeaving. by rewrite decide_True. }
      rewrite Hleft. simpl. rewrite app_nil_r. unfold leaveRounds at 2.
      rewrite getArea_notifyListeners, getArea_setArea.
      rewrite (decide_True (P := x = x)) by reflexivity.
      assert (Han : forall c s', _listeners (this s') = _listeners (this s0) ->
                                 announce c s' = announce c s0).
      { intros c s' E. unfold announce. by rewrite E. }
      case_decide.
      * rewrite !notifyListeners_eq. simpl.
        split; [exact Hp|]. split; [exact Hs|]. split; [exact Hli|]. split.
        -- intros r Hr.
           by apply (Hother _ (afterLeaving l id (getArea s0 x))).
        -- rewrite Hc, <- !app_assoc. do 2 f_equal.
           rewrite (Han _ (setArea x (afterLeaving l id (getArea s0 x)) s)) by exact Hli.
           f_equal. apply Han. exact Hli.
      * rewrite !notifyListeners_eq. simpl.
        split; [exact Hp|]. split; [exact Hs|]. split; [exact Hli|]. split.
        -- intros r Hr.
           by apply (Hother _ (afterLeaving l id (getArea s0 x))).
        -- rewrite Hc, <- !app_assoc. do 2 f_equal.
           rewrite app_nil_r. apply Han. exact Hli.
    + simpl. rewrite app_nil_r.
      split; [exact Hp|]. split; [exact Hs|]. split; [exact Hli|]. split; [|exact Hc].
      intros r Hr. apply Ha. intros Hin. apply Hr. apply elem_of_app. by left.
Qed.

(** X21: the listener calls made by [destroySession] on a town whose area
    list holds no area twice are, in this order: for every area carrying the
    participant's recorded label, one update round and, when its occupant
    list has become empty, one destruction round; then, in every case, one
    round of participant-disconnected calls. *)
Theorem destroySession_call_order (session : SessionRef) (w : World) :
  NoDup (_conversationAreas (this w)) ->
  let player := session_player (getSession w session) in
  let who := getPlayer w player in
  calls (destroySession session w) =
  calls w ++
  flat_map (leaveRounds w (conversationLabel (location who)) (player_id who))
    (filter (fun a => Some (label (getArea w a)) = conversationLabel (location who))
       (_conversationAreas (this w))) ++
  announce (onPlayerDisconnected player) w.
Proof.
  intros Hnd player who. unfold destroySession. rewrite calls_notifyListeners.
  match goal with
  | |- context [JsArray.forEach _ _ ?s0] =>
      pose proof (destroySession_loop_calls session s0 Hnd) as Hc;
      pose proof (proj1 (destroySession_keeps_listeners_and_areas session w)) as Hl
  end.
  cbv zeta in Hc. rewrite Hc. rewrite <- app_assoc. f_equal. f_equal.
  unfold announce. unfold destroySession in Hl.
  rewrite this_notifyListeners in Hl. by rewrite Hl.
Qed.

Lemma destroySession_call_order_witness :
  NoDup (_conversationAreas (this fixtureTownLast)) /\
  calls (destroySession 0%nat fixtureTownLast) =
    [(11%nat, onConversationAreaUpdated 3%nat);
     (11%nat, onConversationAreaDestroyed 3%nat);
     (11%nat, onPlayerDisconnected 1%nat)] /\
  calls (destroySession 0%nat fixtureTownLast) =
    calls fixtureTownLast ++
    flat_map (leaveRounds fixtureTownLast (Some "west") "p1") [3%nat] ++
    announce (onPlayerDisconnected 1%nat) fixtureTownLast.
Proof.
  assert (H : NoDup (_conversationAreas (this fixtureTownLast)))
    by apply NoDup_singleton.
  split; [exact H|]. split; [reflexivity|].
  exact (destroySession_call_order 0%nat fixtureTownLast H).
Defined.

(** ** Moving, in full *)

Lemma withActive_same (p : Player) : withActive (activeConversationArea p) p = p.
Proof. by destruct p. Qed.

Lemma withActive_withActive (o o' : option AreaRef) (p : Player) :
  withActive o (withActive o' p) = withActive o p.
Proof. reflexivity. Qed.

Lemma filter_snoc_empty {A : Type} (P : A -> Prop) `{forall x, Decision (P x)}
    (pre : list A) (x : A) :
  filter P (pre ++ [x]) = [] <-> filter P pre = [] /\ ~ P x.
Proof.
  rewrite filter_app, filter_cons, filter_nil.
  case_decide; split.
  - intros Hn. by apply app_eq_nil in Hn as [_ ?].
  - intros [_ ?]. contradiction.
  - rewrite app_nil_r. by intros ->.
  - rewrite app_nil_r. by intros [-> _].
Qed.

(** The participant objects after the first loop of
    [updatePlayerLocation]. *)
Lemma leave_loop_players (player : PlayerRef) (w : World) (areas : list AreaRef) :
  let old := conversationLabel (location (getPlayer w player)) in
  let s := JsArray.forEach areas (updatePlayerLocation_leave player) w in
  sameShape w s /\
  sessionObjs (store s) = sessionObjs (store w) /\
  (forall q, q <> player -> getPlayer s q = getPlayer w q) /\
  getPlayer s player =
    (if decide (filter (fun a => Some (label (getArea w a)) = old) areas = [])
     then getPlayer w player
     else withActive None (getPlayer w player)).
Proof.
  cbv zeta. set (old := conversationLabel (location (getPlayer w player))).
  pose (I := fun (pre : list AreaRef) (s : World) =>
          sameShape w s /\
          sessionObjs (store s) = sessionObjs (store w) /\
          (forall q, q <> player -> getPlayer s q = getPlayer w q) /\
          getPlayer s player =
            (if decide (filter (fun a => Some (label (getArea w a)) = old) pre = [])
             then getPlayer w player
             else withActive None (getPlayer w player))).
  cut (I areas (JsArray.forEach areas (updatePlayerLocation_leave player) w));
    [intros H; exact H|].
  apply forEach_invariant.
  - split; [apply sameShape_refl|]. repeat split.
  - intros pre x post j s _ _ (Hsh & Hs & Hq & Hp).
    unfold I, updatePlayerLocation_leave.
    pose proof Hsh as (_ & Hl & _ & Hloc). rewrite Hl, Hloc. fold old.
    destruct (decide (Some (label (getArea w x)) = old)) as [Hlab|Hlab].
    + split; [by apply sameShape_notifyListeners, sameShape_setActiveConversationArea,
                sameShape_setOccupants|].
      split; [by rewrite store_notifyListeners|].
      split.
      * intros q Hne. rewrite getPlayer_notifyListeners.
        unfold setActiveConversationArea. rewrite getPlayer_setPlayer.
        rewrite decide_False by congruence. by apply Hq.
      * rewrite getPlayer_notifyListeners.
        unfold setActiveConversationArea. rewrite getPlayer_setPlayer.
        rewrite decide_True by reflexivity.
        change (getPlayer (setArea x ?v s) player) with (getPlayer s player).
        rewrite decide_False by (rewrite filter_snoc_empty; tauto).
        rewrite Hp. by case_decide.
    + split; [exact Hsh|]. split; [exact Hs|]. split; [exact Hq|].
      rewrite Hp. case_decide as He.
      * rewrite decide_True; [done|]. by apply filter_snoc_empty.
      * rewrite decide_False; [done|]. rewrite filter_snoc_empty. tauto.
Qed.

Lemma last_filter_snoc {A : Type} (P : A -> Prop) `{forall x, Decision (P x)}
    (pre : list A) (x : A) :
  last (filter P (pre ++ [x])) = if decide (P x) then Some x else last (filter P pre).
Proof.
  rewrite filter_app, filter_cons, filter_nil.
  case_decide; [by rewrite last_snoc|by rewrite app_nil_r].
Qed.

(** The participant objects after the second loop. *)
Lemma enter_loop_players (player : PlayerRef) (location' : UserLocation)
    (s1 : World) (areas : list AreaRef) :
  let s := JsArray.forEach areas (updatePlayerLocation_enter player location') s1 in
  sameShape s1 s /\
  sessionObjs (store s) = sessionObjs (store s1) /\
  (forall q, q <> player -> getPlayer s q = getPlayer s1 q) /\
  getPlayer s player =
    match last (filter (fun a => Some (label (getArea s1 a)) = conversationLabel location')
                  areas) with
    | Some r => withActive (Some r) (getPlayer s1 player)
    | None => getPlayer s1 player
    end.
Proof.
  cbv zeta.
  pose (I := fun (pre : list AreaRef) (s : World) =>
          sameShape s1 s /\
          sessionObjs (store s) = sessionObjs (store s1) /\
          (forall q, q <> player -> getPlayer s q = getPlayer s1 q) /\
          getPlayer s player =
            match last (filter (fun a => Some (label (getArea s1 a)) =
                                         conversationLabel location') pre) with
            | Some r => withActive (Some r) (getPlayer s1 player)
            | None => getPlayer s1 player
            end).
  cut (I areas (JsArray.forEach areas (updatePlayerLocation_enter player location') s1));
    [intros H; exact H|].
  apply forEach_invariant.
  - split; [apply sameShape_refl|]. repeat split.
  - intros pre x post j s _ _ (Hsh & Hs & Hq & Hp).
    unfold I, updatePlayerLocation_enter.
    pose proof Hsh as (_ & Hl & _ & _). rewrite Hl.
    rewrite last_filter_snoc.
    destruct (decide (Some (label (getArea s1 x)) = conversationLabel location'))
      as [Hlab|Hlab].
    + split; [by apply sameShape_notifyListeners, sameShape_setActiveConversationArea,
                sameShape_setOccupants|].
      split; [by rewrite store_notifyListeners|].
      split.
      * intros q Hne. rewrite getPlayer_notifyListeners.
        unfold setActiveConversationArea. rewrite getPlayer_setPlayer.
        rewrite decide_False by congruence. by apply Hq.
      * rewrite getPlayer_notifyListeners.
        unfold setActiveConversationArea. rewrite getPlayer_setPlayer.
        rewrite decide_True by reflexivity.
        change (getPlayer (setArea x ?v s) player) with (getPlayer s player).
        rewrite Hp. by destruct (last _).
    + split; [exact Hsh|]. split; [exact Hs|]. split; [exact Hq|]. exact Hp.
Qed.

(** The participant objects after [updatePlayerLocation]. *)
Lemma updatePlayerLocation_players (player : PlayerRef) (location' : UserLocation)
    (w : World) :
  let old := conversationLabel (location (getPlayer w player)) in
  let new := conversationLabel location' in
  let w' := updatePlayerLocation player location' w in
  sessionObjs (store w') = sessionObjs (store w) /\
  (forall q, q <> player -> getPlayer w' q = getPlayer w q) /\
  getPlayer w' player =
    mkPlayer (player_id (getPlayer w player)) (userName (getPlayer w player)) location'
      (if decide (old <> new)
       then activeAfterMove w old new (activeConversationArea (getPlayer w player))
       else activeConversationArea (getPlayer w player)).
Proof.
  cbv zeta. unfold updatePlayerLocation.
  rewrite store_notifyListeners.
  assert (Hfin : forall s o,
             sessionObjs (store s) = sessionObjs (store w) ->
             (forall q, q <> player -> getPlayer s q = getPlayer w q) ->
             getPlayer s player = withActive o (getPlayer w player) ->
             sessionObjs (store (updateLocation player location' s)) =
               sessionObjs (store w) /\
             (forall q, q <> player ->
                getPlayer (notifyListeners (onPlayerMoved player)
                             (updateLocation player location' s)) q = getPlayer w q) /\
             getPlayer (notifyListeners (onPlayerMoved player)
                          (updateLocation player location' s)) player =
               mkPlayer (player_id (getPlayer w player)) (userName (getPlayer w player))
                 location' o).
  { intros s o Hs Hq Hp. split; [exact Hs|]. split.
    - intros q Hne. rewrite getPlayer_notifyListeners. unfold updateLocation.
      rewrite getPlayer_setPlayer, decide_False by congruence. by apply Hq.
    - rewrite getPlayer_notifyListeners. unfold updateLocation.
      rewrite getPlayer_setPlayer, decide_True by reflexivity. by rewrite Hp. }
  case_decide as Hch.
  - destruct (leave_loop_players player w (_conversationAreas (this w)))
      as (Hsh1 & Hs1 & Hq1 & Hp1).
    cbv zeta in Hsh1, Hs1, Hq1, Hp1.
    set (s1 := JsArray.forEach (_conversationAreas (this w))
                 (updatePlayerLocation_leave player) w) in *.
    destruct (enter_loop_players player location' s1 (_conversationAreas (this s1)))
      as (Hsh2 & Hs2 & Hq2 & Hp2).
    cbv zeta in Hsh2, Hs2, Hq2, Hp2.
    set (s2 := JsArray.forEach (_conversationAreas (this s1))
                 (updatePlayerLocation_enter player location') s1) in *.
    apply Hfin.
    + congruence.
    + intros q Hne. rewrite Hq2, Hq1 by exact Hne. reflexivity.
    + destruct Hsh1 as (Ht & Hl & _ & _).
      assert (E : filter (fun a => Some (label (getArea s1 a)) =
                                   conversationLabel location')
                    (_conversationAreas (this s1)) =
                  areasLabelled w (conversationLabel location')).
      { unfold areasLabelled. rewrite Ht. apply list_filter_iff.
        intros a. by rewrite Hl. }
      rewrite E in Hp2. rewrite Hp2, Hp1. clear Hp1 Hp2. unfold activeAfterMove.
      change (filter _ (_conversationAreas (this w)))
        with (areasLabelled w (conversationLabel (location (getPlayer w player)))).
      destruct (last (areasLabelled w (conversationLabel location'))).
      * case_decide; reflexivity.
      * case_decide; [by rewrite withActive_same|reflexivity].
  - apply Hfin; [reflexivity|reflexivity|by rewrite withActive_same].
Qed.

(** X22: after [updatePlayerLocation] the participant object holds the new
    location and the id and name it had; every other participant object,
    every session object and the controller's own fields (the participant,
    session, listener and area lists included) are as before: no area is
    removed from the town, whatever its occupant list has become. *)
Theorem updatePlayerLocation_moves_one_participant (player : PlayerRef)
    (location' : UserLocation) (w : World) :
  let w' := updatePlayerLocation player location' w in
  location (getPlayer w' player) = location' /\
  player_id (getPlayer w' player) = player_id (getPlayer w player) /\
  userName (getPlayer w' player) = userName (getPlayer w player) /\
  (forall q, q <> player -> getPlayer w' q = getPlayer w q) /\
  sessionObjs (store w') = sessionObjs (store w) /\
  this w' = this w.
Proof.
  cbv zeta.
  destruct (updatePlayerLocation_players player location' w) as (Hs & Hq & Hp).
  cbv zeta in Hs, Hq, Hp. rewrite Hp. simpl.
  repeat split; try assumption. apply updatePlayerLocation_this.
Qed.

(** X23: the active-area reference after [updatePlayerLocation]: with an
    unchanged label it is what it was; with a changed label it is the last
    area of the list carrying the new label, or, when no area carries the new
    label, nothing if some area carried the old label and what it was
    otherwise. *)
Theorem updatePlayerLocation_active_area (player : PlayerRef)
    (location' : UserLocation) (w : World) :
  let old := conversationLabel (location (getPlayer w player)) in
  let new := conversationLabel location' in
  activeConversationArea (getPlayer (updatePlayerLocation player location' w) player) =
  if decide (old <> new)
  then match last (areasLabelled w new) with
       | Some r => Some r
       | None => if decide (areasLabelled w old = [])
                 then activeConversationArea (getPlayer w player)
                 else None
       end
  else activeConversationArea (getPlayer w player).
Proof.
  cbv zeta.
  destruct (updatePlayerLocation_players player location' w) as (_ & _ & Hp).
  cbv zeta in Hp. rewrite Hp. reflexivity.
Qed.

(** The areas after the second loop of [updatePlayerLocation], each area of
    the list being visited once. *)
Lemma enter_loop_areas (player : PlayerRef) (location' : UserLocation) (s1 : World) :
  NoDup (_conversationAreas (this s1)) ->
  let id := player_id (getPlayer s1 player) in
  let s := JsArray.forEach (_conversationAreas (this s1))
             (updatePlayerLocation_enter player location') s1 in
  forall r,
    getArea s r =
    if decide (r ∈ _conversationAreas (this s1))
    then afterEntering (conversationLabel location') id (getArea s1 r)
    else getArea s1 r.
Proof.
  intros Hnd id. cbv zeta.
  set (l := conversationLabel location').
  pose (I := fun (pre : list AreaRef) (s : World) =>
          sameShape s1 s /\
          forall r, getArea s r =
                    if decide (r ∈ pre) then afterEntering l id (getArea s1 r)
                    else getArea s1 r).
  cut (I (_conversationAreas (this s1))
         (JsArray.forEach (_conversationAreas (this s1))
            (updatePlayerLocation_enter player location') s1)).
  { intros (_ & H). exact H. }
  apply forEach_invariant.
  - split; [apply sameShape_refl|]. intros r.
    rewrite decide_False by apply not_elem_of_nil. reflexivity.
  - intros pre x post j s Hl _ (Hsh & Ha).
    assert (Hx : x ∉ pre).
    { rewrite Hl in Hnd. apply NoDup_app in Hnd as (_ & Hd & _).
      intros Hin. apply (Hd x Hin). left. }
    unfold I, updatePlayerLocation_enter.
    pose proof Hsh as (_ & _ & Hid & _).
    rewrite Hid. fold id l.
    assert (Hax : getArea s x = getArea s1 x).
    { rewrite Ha. by rewrite decide_False. }
    assert (Hstep : forall r,
               (if decide (r ∈ pre ++ [x])
                then afterEntering l id (getArea s1 r) else getArea s1 r) =
               (if decide (x = r) then afterEntering l id (getArea s1 x)
                else getArea s r)).
    { intros r. rewrite Ha.
      destruct (decide (x = r)) as [<-|Hne].
      - rewrite decide_True; [reflexivity|]. apply elem_of_app. right. left.
      - destruct (decide (r ∈ pre)) as [Hin|Hin].
        + rewrite decide_True; [reflexivity|]. apply elem_of_app. by left.
        + rewrite decide_False; [reflexivity|].
          intros [H|H]%elem_of_app; [done|].
          apply list_elem_of_singleton in H. congruence. }
    rewrite Hax.
    destruct (decide (Some (label (getArea s1 x)) = l)) as [Hlab|Hlab].
    + assert (Hent : with_occupantsByID
                       (JsArray.push (occupantsByID (getArea s1 x)) id) (getArea s1 x) =
                     afterEntering l id (getArea s1 x)).
      { unfold afterEntering. by rewrite decide_True. }
      rewrite Hent. split.
      * apply sameShape_notifyListeners, sameShape_setActiveConversationArea.
        rewrite <- Hent, <- Hax. by apply sameShape_setOccupants.
      * intros r. rewrite getArea_notifyListeners, getArea_setActiveConversationArea.
        rewrite getArea_setArea. by rewrite Hstep.
    + split; [exact Hsh|].
      intros r. rewrite Hstep. case_decide; [|reflexivity].
      subst r. rewrite Hax. unfold afterEntering. by rewrite decide_False.
Qed.

(** X24: when the label changes to that of an area of the town (the area
    list holding no area twice), [updatePlayerLocation] appends the
    participant's id to the end of that area's occupant list, whether or not
    the list already holds the id. *)
Theorem entering_appends_the_id (w : World) (a : AreaRef) (player : PlayerRef)
    (location' : UserLocation) :
  NoDup (_conversationAreas (this w)) ->
  a ∈ _conversationAreas (this w) ->
  Some (label (getArea w a)) = conversationLabel location' ->
  conversationLabel (location (getPlayer w player)) <> conversationLabel location' ->
  occupantsByID (getArea (updatePlayerLocation player location' w) a) =
  occupantsByID (getArea w a) ++ [player_id (getPlayer w player)].
Proof.
  intros Hnd Ha Hlab Hne. unfold updatePlayerLocation.
  rewrite getArea_notifyListeners, getArea_updateLocation.
  rewrite decide_True by exact Hne.
  pose proof (leave_loop_areas player w Hnd) as Hleave. cbv zeta in Hleave.
  destruct (leave_loop_calls player w w (_conversationAreas (this w))
              (sameShape_refl w)) as [Hsh1 _].
  cbv zeta in Hsh1.
  set (s1 := JsArray.forEach (_conversationAreas (this w))
               (updatePlayerLocation_leave player) w) in *.
  destruct Hsh1 as (Ht & _ & Hid & _).
  assert (Hnd1 : NoDup (_conversationAreas (this s1))) by (by rewrite Ht).
  pose proof (enter_loop_areas player location' s1 Hnd1) as Henter.
  cbv zeta in Henter. rewrite Henter. rewrite Ht, decide_True by exact Ha.
  rewrite Hleave, decide_True by exact Ha.
  assert (Hstay : afterLeaving (conversationLabel (location (getPlayer w player)))
                    (player_id (getPlayer w player)) (getArea w a) = getArea w a).
  { unfold afterLeaving. rewrite decide_False; [reflexivity|]. congruence. }
  rewrite Hstay. unfold afterEntering. rewrite decide_True by exact Hlab.
  simpl. unfold JsArray.push. by rewrite Hid.
Qed.

Lemma entering_appends_the_id_witness :
  let w := fixtureTownReturning in
  NoDup (_conversationAreas (this w)) /\
  3%nat ∈ _conversationAreas (this w) /\
  Some (label (getArea w 3%nat)) = conversationLabel fixtureLocationWest /\
  conversationLabel (location (getPlayer w 1%nat)) <>
    conversationLabel fixtureLocationWest /\
  occupantsByID (getArea w 3%nat) = ["ghost"; "p1"] /\
  occupantsByID (getArea (updatePlayerLocation 1%nat fixtureLocationWest w) 3%nat) =
    ["ghost"; "p1"; "p1"].
Proof.
  cbv zeta.
  assert (H1 : NoDup (_conversationAreas (this fixtureTownReturning)))
    by apply NoDup_singleton.
  assert (H2 : 3%nat ∈ _conversationAreas (this fixtureTownReturning)) by constructor.
  assert (H3 : Some (label (getArea fixtureTownReturning 3%nat)) =
               conversationLabel fixtureLocationWest) by reflexivity.
  assert (H4 : conversationLabel (location (getPlayer fixtureTownReturning 1%nat)) <>
               conversationLabel fixtureLocationWest) by discriminate.
  split; [exact H1|]. split; [exact H2|]. split; [exact H3|]. split; [exact H4|].
  split; [reflexivity|].
  exact (entering_appends_the_id fixtureTownReturning 3%nat 1%nat fixtureLocationWest
           H1 H2 H3 H4).
Defined.

(** ** Accepted areas and successful admissions *)

(** X25: an accepted [addConversationArea] appends the candidate to the end
    of the area list, makes one update round for it, sets the candidate as
    active area of every participant of the town standing strictly inside
    its box, and leaves the candidate's occupant list as the list it was
    passed followed by the ids of those participants in list order; the
    participant, session and listener lists are as before. *)
Theorem accepted_area_is_populated_and_appended (a : AreaRef) (w w' : World) :
  addConversationArea a w = (true, w') ->
  let coords := getConversationAreaCoordinates (boundingBox (getArea w a)) in
  occupantsByID (getArea w' a) =
    occupantsByID (getArea w a) ++ insideIds w coords (_players (this w)) /\
  (forall p, p ∈ _players (this w) ->
             isPlayerInConversationArea (getPlayer w p) coords = true ->
             activeConversationArea (getPlayer w' p) = Some a) /\
  _conversationAreas (this w') = _conversationAreas (this w) ++ [a] /\
  calls w' = calls w ++ announce (onConversationAreaUpdated a) w /\
  _players (this w') = _players (this w) /\
  _sessions (this w') = _sessions (this w) /\
  _listeners (this w') = _listeners (this w).
Proof.
  intros E coords.
  destruct (addConversationArea_accepted a w w' E) as (H1 & H2 & H3 & H4).
  split; [exact H1|]. split; [exact H2|]. split; [exact H3|]. split; [exact H4|].
  revert E. unfold addConversationArea.
  case_decide; [discriminate|].
  destruct (labelExistsLoop w _ _); [discriminate|].
  destruct (conversationOverlaps _ w); [discriminate|].
  intros [= <-]. simpl. rewrite this_notifyListeners.
  destruct (addConversationArea_loop a
              (getConversationAreaCoordinates (boundingBox (getArea w a))) w)
    as ((Ht & _) & _).
  cbv zeta in Ht. rewrite Ht. repeat split.
Qed.

Lemma accepted_area_is_populated_and_appended_witness :
  let r := addConversationArea 3%nat fixtureTownGhost in
  r = (true, r.2) /\
  occupantsByID (getArea r.2 3%nat) = ["ghost"; "p1"] /\
  _conversationAreas (this r.2) = [3%nat] /\
  calls r.2 = [(11%nat, onConversationAreaUpdated 3%nat)].
Proof.
  cbv zeta.
  assert (E : addConversationArea 3%nat fixtureTownGhost =
              (true, (addConversationArea 3%nat fixtureTownGhost).2)) by reflexivity.
  destruct (accepted_area_is_populated_and_appended 3%nat fixtureTownGhost _ E)
    as (H1 & _ & H3 & H4 & _).
  split; [exact E|]. split; [exact H1|]. split; [exact H3|exact H4].
Defined.

(** X26: when provisioning succeeds, [addPlayer] makes exactly one round of
    participant-joined calls, stores the issued video token in the new
    session, and changes no participant object, no area object and no
    session object that existed before. *)
Theorem successful_admission_notifies_once (videoClient : IVideoClient)
    (token : string) (newPlayer : PlayerRef) (w : World) (tok : string) :
  videoClient (_coveyTownID (this w)) (player_id (getPlayer w newPlayer)) =
    Resolved tok ->
  let r := addPlayer videoClient token newPlayer w in
  calls r.2 = calls w ++ announce (onPlayerJoined newPlayer) w /\
  (exists s, r.1 = Resolved s /\ videoToken (getSession r.2 s) = Some tok) /\
  playerObjs (store r.2) = playerObjs (store w) /\
  areaObjs (store r.2) = areaObjs (store w) /\
  (forall s, s ∈ dom (sessionObjs (store w)) -> getSession r.2 s = getSession w s).
Proof.
  intros H r. subst r. rewrite (addPlayer_resolved _ _ _ _ _ H). simpl.
  rewrite notifyListeners_eq. simpl. split; [reflexivity|]. split; [|split; [|split]].
  - eexists. split; [reflexivity|]. unfold getSession. simpl.
    by rewrite lookup_total_insert_eq.
  - reflexivity.
  - reflexivity.
  - intros s Hs. unfold getSession. simpl.
    rewrite !lookup_total_insert_ne; [reflexivity| |];
      intros <-; by apply (is_fresh (dom (sessionObjs (store w)))).
Qed.

Lemma successful_admission_notifies_once_witness :
  let videoClient : IVideoClient := fun _ id => Resolved ("video-" +:+ id) in
  let w := fixtureTownNewcomer in
  let r := addPlayer videoClient "token2" 2%nat w in
  videoClient (_coveyTownID (this w)) (player_id (getPlayer w 2%nat)) =
    Resolved "video-p2" /\
  calls r.2 = [(11%nat, onPlayerJoined 2%nat)] /\
  getSession r.2 0%nat = getSession w 0%nat.
Proof.
  cbv zeta.
  destruct (successful_admission_notifies_once (fun _ id => Resolved ("video-" +:+ id))
              "token2" 2%nat fixtureTownNewcomer "video-p2" eq_refl)
    as (H1 & _ & _ & _ & H5).
  split; [reflexivity|]. split; [exact H1|].
  apply H5. apply elem_of_dom. by exists (mkSession 1%nat "token" (Some "video")).
Defined.

Lemma location_inside_at_most_one_area_witness :
  nonOverlapping fixtureTownBoth /\
  _conversationAreas (this fixtureTownBoth) = [3%nat; 7%nat] /\
  isPlayerInConversationArea (playerAt 5%Q 5%Q)
    (getConversationAreaCoordinates (boundingBox (getArea fixtureTownBoth 3%nat))) = true /\
  isPlayerInConversationArea (playerAt 5%Q 5%Q)
    (getConversationAreaCoordinates (boundingBox (getArea fixtureTownBoth 7%nat))) = false.
Proof.
  assert (H : nonOverlapping fixtureTownBoth).
  { change (pairwise (apart fixtureTownBoth) [3%nat; 7%nat]).
    split; [constructor; [reflexivity|constructor]|].
    split; [constructor|exact I]. }
  split; [exact H|]. split; [reflexivity|]. split; [reflexivity|].
  refine (location_inside_at_most_one_area fixtureTownBoth (playerAt 5%Q 5%Q)
            0%nat 1%nat 3%nat 7%nat H _ eq_refl eq_refl eq_refl).
  discriminate.
Defined.
